(** * A multilevel LRU cache: shallow embedding of [main.py]

    The program is a chain of cache levels.  Each level owns a [Cache],
    which binds a capacity-bounded [HashMapBasedStorage] to an
    [LRUKeyAccessPolicy]; the policy keeps a hand-written doubly-linked
    list ([LL]) of [Node] objects and a dict from keys to nodes.

    Python objects are mutable and shared, so every class is embedded as
    a record of its fields and every method as a computation in a small
    state-and-exception monad: a method maps the object's state to an
    outcome (a returned value or a raised exception) and the state it
    leaves behind.  A raised exception keeps the mutations made before
    it, as in Python.

    The abstract classes [BaseStorage], [BaseKeyAccessPolicy] and
    [BasecacheLevel] have one concrete subclass each, and it is these
    that are embedded.  The levels of a chain own distinct caches, as
    in the program's driver. *)

From Stdlib Require Import ZArith Lia.
From stdpp Require Import base option list gmap strings.

Set Warnings "-clear-no-such-hyp".

Open Scope string_scope.
Open Scope nat_scope.

(** ** Values, exceptions, and the monad *)

(** Python values that the caches hold.  Keys are strings.  A
    [ReadResponse] object is a value like any other and can itself be
    stored. *)
Inductive pyval : Type :=
  | VNone
  | VInt (z : Z)
  | VStr (s : string)
  | VReadResponse (value : pyval) (time_took : Z).

(** The exceptions the program can raise.  [AttributeError attr] is an
    attribute access [None.attr]; [RecursionError] is the interpreter
    running out of stack. *)
Inductive exn : Type :=
  | StorageFullException
  | KeyError (key : string)
  | AttributeError (attr : string)
  | RecursionError.

Inductive outcome (A : Type) : Type :=
  | Ret (a : A)
  | Exc (e : exn).
Arguments Ret {A} a.
Arguments Exc {A} e.

Definition M (S A : Type) : Type := S → outcome A * S.

Definition ret {S A} (a : A) : M S A := λ s, (Ret a, s).
Definition raise {S A} (e : exn) : M S A := λ s, (Exc e, s).
Definition bind {S A B} (m : M S A) (k : A → M S B) : M S B :=
  λ s, match m s with
       | (Ret a, s') => k a s'
       | (Exc e, s') => (Exc e, s')
       end.
Definition gets {S A} (f : S → A) : M S A := λ s, (Ret (f s), s).
Definition modify {S} (f : S → S) : M S unit := λ s, (Ret tt, f s).

(** [try: m  except E: h] where [catches] says which exceptions the
    clause names; the handler runs in the state the raise left. *)
Definition try_except {S A} (m : M S A) (catches : exn → bool) (h : exn → M S A)
  : M S A :=
  λ s, match m s with
       | (Ret a, s') => (Ret a, s')
       | (Exc e, s') => if catches e then h e s' else (Exc e, s')
       end.

(** Run a method of a field object inside the owner's state. *)
Definition zoom {S T A} (proj : S → T) (upd : T → S → S) (m : M T A) : M S A :=
  λ s, let '(r, t') := m (proj s) in (r, upd t' s).

Notation "'let!' x := m 'in' k" := (bind m (λ x, k))
  (at level 10, x name, m at level 100, k at level 200).
Notation "m ;> k" := (bind m (λ _, k))
  (at level 100, k at level 200, right associativity).

(** Python's default recursion limit.  Every recursive method below
    needs depth at most two (lemmas [make_node_head_depth] and
    [put_depth]), so the limit is never met. *)
Definition recursion_limit : nat := 1000.

(** ** Storage *)

(** [capacity] is a number or [float('inf')]. *)
Inductive bound : Type :=
  | Finite (n : nat)
  | Infinite.

(** [len(self.db) == self.capacity] *)
Definition len_eq (n : nat) (c : bound) : bool :=
  match c with
  | Finite m => Nat.eqb n m
  | Infinite => false
  end.

Module HashMapBasedStorage.

Record t : Type := mk {
  capacity : bound;
  db : gmap string pyval
}.

Definition init (capacity : bound) : t := mk capacity ∅.

Definition set_db (f : gmap string pyval → gmap string pyval) (self : t) : t :=
  mk (capacity self) (f (db self)).

Definition put (key : string) (value : pyval) : M t unit :=
  let! n := gets (λ self, size (db self)) in
  let! c := gets capacity in
  if len_eq n c then raise StorageFullException
  else modify (set_db (insert key value)).

Definition get (key : string) : M t pyval :=
  let! o := gets (λ self, db self !! key) in
  match o with
  | Some v => ret v
  | None => raise (KeyError key)
  end.

Definition remove (key : string) : M t unit :=
  let! o := gets (λ self, db self !! key) in
  match o with
  | Some _ => modify (set_db (delete key))
  | None => raise (KeyError key)
  end.

End HashMapBasedStorage.

(** ** The recency list *)

(** A [Node] object.  [prev] and [next] are references to other nodes
    or [None]. *)
Record Node : Type := mkNode {
  val : string;
  prev : option nat;
  next : option nat
}.

Module LL.

(** [nodes] is the store of [Node] objects, a reference being the
    index at which the node was allocated; [head] and [tail] are the
    two fields of the Python [LL] object.  Nodes are never freed
    (a node stays alive while anything points to it), so an index
    never dangles. *)
Record t : Type := mk {
  nodes : list Node;
  head : option nat;
  tail : option nat
}.

Definition init : t := mk [] None None.

Definition node_at (self : t) (r : nat) : Node :=
  default (mkNode "" None None) (nodes self !! r).

Definition set_head (h : option nat) : M t unit :=
  modify (λ self, mk (nodes self) h (tail self)).
Definition set_tail (tl : option nat) : M t unit :=
  modify (λ self, mk (nodes self) (head self) tl).

(** [Node(val)] *)
Definition new_node (v : string) : M t nat :=
  let! r := gets (λ self, length (nodes self)) in
  modify (λ self, mk (nodes self ++ [mkNode v None None]) (head self) (tail self)) ;>
  ret r.

(** [o.prev], [o.next], [o.val] for [o] a node or [None] *)
Definition get_prev (o : option nat) : M t (option nat) :=
  match o with
  | Some r => gets (λ self, prev (node_at self r))
  | None => raise (AttributeError "prev")
  end.
Definition get_next (o : option nat) : M t (option nat) :=
  match o with
  | Some r => gets (λ self, next (node_at self r))
  | None => raise (AttributeError "next")
  end.
Definition get_val (o : option nat) : M t string :=
  match o with
  | Some r => gets (λ self, val (node_at self r))
  | None => raise (AttributeError "val")
  end.

Definition write (r : nat) (f : Node → Node) (self : t) : t :=
  mk (<[r := f (node_at self r)]> (nodes self)) (head self) (tail self).

(** [o.prev = v] and [o.next = v] *)
Definition set_prev (o v : option nat) : M t unit :=
  match o with
  | Some r => modify (write r (λ n, mkNode (val n) v (next n)))
  | None => raise (AttributeError "prev")
  end.
Definition set_next (o v : option nat) : M t unit :=
  match o with
  | Some r => modify (write r (λ n, mkNode (val n) (prev n) v))
  | None => raise (AttributeError "next")
  end.

(** The body of [make_node_head]; [make_node_head] stands for the
    method itself in the two recursive calls. *)
Definition make_node_head_body (make_node_head : nat → M t unit) (node : nat)
  : M t unit :=
  let! h := gets head in
  if decide (Some node = h) then ret tt
  else if decide (h = None) then
    set_head (Some node) ;> set_tail (Some node) ;>
    let! h := gets head in let! tl := gets tail in set_next h tl ;>
    let! tl := gets tail in let! h := gets head in set_prev tl h
  else
    let! p := get_prev (Some node) in
    let! n := get_next (Some node) in
    if decide (p = None ∧ n = None) then
      let! h := gets head in set_next (Some node) h ;>
      let! h := gets head in set_prev h (Some node) ;>
      set_head (Some node)
    else if decide (n = None) then
      let! p := get_prev (Some node) in set_next p None ;>
      let! p := get_prev (Some node) in set_tail p ;>
      set_prev (Some node) None ;> set_next (Some node) None ;>
      make_node_head node
    else
      let! prev := get_prev (Some node) in
      let! next := get_next (Some node) in
      set_next prev next ;>
      set_prev next prev ;>
      set_prev (Some node) None ;> set_next (Some node) None ;>
      make_node_head node.

Fixpoint make_node_head_rec (depth : nat) : nat → M t unit :=
  match depth with
  | 0 => λ _, raise RecursionError
  | S depth => make_node_head_body (make_node_head_rec depth)
  end.

Definition make_node_head : nat → M t unit :=
  make_node_head_rec recursion_limit.

Definition key_to_remove : M t (option nat) :=
  let! h := gets head in
  let! tl := gets tail in
  if decide (h = tl) then
    let! temp := gets head in
    set_head None ;> set_tail None ;>
    ret temp
  else
    let! temp := gets tail in
    let! tl := gets tail in let! p := get_prev tl in set_next p None ;>
    let! tl := gets tail in let! p := get_prev tl in set_tail p ;>
    ret temp.

End LL.

(** ** The LRU policy *)

Module LRUKeyAccessPolicy.

Record t : Type := mk {
  hashmap : gmap string nat;
  ll : LL.t
}.

Definition init : t := mk ∅ LL.init.

Definition in_ll {A} (m : M LL.t A) : M t A :=
  zoom ll (λ l self, mk (hashmap self) l) m.

Definition set_hashmap (f : gmap string nat → gmap string nat) : M t unit :=
  modify (λ self, mk (f (hashmap self)) (ll self)).

Definition key_accessed (key : string) : M t unit :=
  let! o := gets (λ self, hashmap self !! key) in
  match o with
  | Some node => in_ll (LL.make_node_head node)
  | None =>
    let! node := in_ll (LL.new_node key) in
    set_hashmap (insert key node) ;>
    in_ll (LL.make_node_head node)
  end.

Definition key_to_remove : M t string :=
  let! tail := in_ll LL.key_to_remove in
  let! k := in_ll (LL.get_val tail) in
  let! o := gets (λ self, hashmap self !! k) in
  match o with
  | Some _ => set_hashmap (delete k) ;> in_ll (LL.get_val tail)
  | None => raise (KeyError k)
  end.

End LRUKeyAccessPolicy.

(** ** Responses *)

(** A [ReadResponse] or [WriteResponse] object. *)
Record Response : Type := mkResponse {
  value : pyval;
  time_took : Z
}.

(** The response object seen as a Python value. *)
Definition as_value (r : Response) : pyval :=
  VReadResponse (value r) (time_took r).

(** ** Cache *)

Definition is_StorageFullException (e : exn) : bool :=
  match e with
  | StorageFullException => true
  | _ => false
  end.

Module Cache.

Record t : Type := mk {
  storage : HashMapBasedStorage.t;
  key_access_policy : LRUKeyAccessPolicy.t
}.

Definition in_storage {A} (m : M HashMapBasedStorage.t A) : M t A :=
  zoom storage (λ s self, mk s (key_access_policy self)) m.
Definition in_policy {A} (m : M LRUKeyAccessPolicy.t A) : M t A :=
  zoom key_access_policy (λ p self, mk (storage self) p) m.

(** The body of [put]; [put] stands for the method itself in the
    retry. *)
Definition put_body (put : string → pyval → M t unit) (key : string) (value : pyval)
  : M t unit :=
  try_except
    (in_storage (HashMapBasedStorage.put key value) ;>
     in_policy (LRUKeyAccessPolicy.key_accessed key))
    is_StorageFullException
    (λ _,
       let! key_to_be_removed := in_policy LRUKeyAccessPolicy.key_to_remove in
       in_storage (HashMapBasedStorage.remove key_to_be_removed) ;>
       put key value ;>
       in_policy (LRUKeyAccessPolicy.key_accessed key)).

Fixpoint put_rec (depth : nat) : string → pyval → M t unit :=
  match depth with
  | 0 => λ _ _, raise RecursionError
  | S depth => put_body (put_rec depth)
  end.

Definition put : string → pyval → M t unit := put_rec recursion_limit.

Definition get (key : string) : M t pyval :=
  let! value := in_storage (HashMapBasedStorage.get key) in
  ret value.

End Cache.

(** ** Cache levels *)

(** A double-ended queue with [maxlen]; [None] is unbounded. *)
Record deque (A : Type) : Type := mkDeque {
  maxlen : option nat;
  items : list A
}.
Arguments mkDeque {A} maxlen items.
Arguments maxlen {A} d.
Arguments items {A} d.

Definition appendleft {A} (x : A) (d : deque A) : deque A :=
  match maxlen d with
  | Some n => mkDeque (Some n) (take n (x :: items d))
  | None => mkDeque None (x :: items d)
  end.

Module CacheLevel.

(** A level holds its name and its cache.  Its [next] field, like
    [MultilevelCache.front_cache_level], is a level or [None]: a
    reference to a level is embedded as the list of the levels from
    that one on, [None] being the empty list. *)
Record t : Type := mk {
  name : string;
  cache_provider : Cache.t
}.

Definition with_cache (self : t) (c : Cache.t) : t := mk (name self) c.

Section Clock.

(** [time n] is what the [n]-th call of [time.time()] returns; the
    state counts the calls made so far.  Timestamps are integers
    here, the program's are floats. *)
Variable time : nat → Z.

(** [ref.get(key)]; the message printed on a miss is not modelled. *)
Fixpoint get (key : string) (ref : list t) (clk : nat)
  : outcome Response * (list t * nat) :=
  match ref with
  | [] => (Exc (AttributeError "get"), ([], clk))
  | self :: next =>
    let t1 := time clk in
    let clk := S clk in
    match Cache.get key (cache_provider self) with
    | (Ret value, c) =>
      let t2 := time clk in
      (Ret (mkResponse value (t2 - t1)), (with_cache self c :: next, S clk))
    | (Exc (KeyError k), c) =>
      match next with
      | [] => (Exc (KeyError k), (with_cache self c :: next, clk))
      | _ :: _ =>
        match get key next clk with
        | (Ret value, (next, clk)) =>
          match Cache.put key (as_value value) c with
          | (Ret _, c) =>
            let t2 := time clk in
            (Ret (mkResponse (as_value value) (t2 - t1)),
             (with_cache self c :: next, S clk))
          | (Exc e, c) => (Exc e, (with_cache self c :: next, clk))
          end
        | (Exc e, (next, clk)) => (Exc e, (with_cache self c :: next, clk))
        end
      end
    | (Exc e, c) => (Exc e, (with_cache self c :: next, clk))
    end
  end.

(** [ref.put(key, value)] *)
Fixpoint put (key : string) (value : pyval) (ref : list t) (clk : nat)
  : outcome Response * (list t * nat) :=
  match ref with
  | [] => (Exc (AttributeError "put"), ([], clk))
  | self :: next =>
    let t1 := time clk in
    let clk := S clk in
    match Cache.put key value (cache_provider self) with
    | (Ret _, c) =>
      match next with
      | [] =>
        let t2 := time clk in
        (Ret (mkResponse VNone (t2 - t1)), (with_cache self c :: next, S clk))
      | _ :: _ =>
        match put key value next clk with
        | (Ret _, (next, clk)) =>
          let t2 := time clk in
          (Ret (mkResponse VNone (t2 - t1)), (with_cache self c :: next, S clk))
        | (Exc e, (next, clk)) => (Exc e, (with_cache self c :: next, clk))
        end
      end
    | (Exc e, c) => (Exc e, (with_cache self c :: next, clk))
    end
  end.

End Clock.

End CacheLevel.

(** ** The multilevel cache *)

Module MultilevelCache.

Record t : Type := mk {
  front_cache_level : list CacheLevel.t;
  get_queue : deque Response;
  put_queue : deque Response
}.

Definition init (front_cache_level : list CacheLevel.t) (last_num_stat : option nat) : t :=
  mk front_cache_level (mkDeque last_num_stat []) (mkDeque last_num_stat []).

(** The new level is linked after the last one; with no front level
    it becomes the front. *)
Definition add_cache_level (cache_level : list CacheLevel.t) (self : t) : t :=
  mk (front_cache_level self ++ cache_level) (get_queue self) (put_queue self).

Section Clock.

Variable time : nat → Z.

Definition get (key : string) (self : t) (clk : nat)
  : outcome pyval * (t * nat) :=
  match CacheLevel.get time key (front_cache_level self) clk with
  | (Ret read_response, (front, clk)) =>
    (Ret (value read_response),
     (mk front (appendleft read_response (get_queue self)) (put_queue self), clk))
  | (Exc e, (front, clk)) =>
    (Exc e, (mk front (get_queue self) (put_queue self), clk))
  end.

Definition put (key : string) (value : pyval) (self : t) (clk : nat)
  : outcome unit * (t * nat) :=
  match CacheLevel.put time key value (front_cache_level self) clk with
  | (Ret write_response, (front, clk)) =>
    (Ret tt,
     (mk front (get_queue self) (appendleft write_response (put_queue self)), clk))
  | (Exc e, (front, clk)) =>
    (Exc e, (mk front (get_queue self) (put_queue self), clk))
  end.

End Clock.

End MultilevelCache.

(** ** Running the program on concrete inputs *)

(** A sequence of calls on a new policy.  A call that raises leaves the
    state it reached, and the next call runs in it. *)
Inductive policy_op : Type :=
  | Accessed (key : string)
  | ToRemove.

Definition policy_step (p : LRUKeyAccessPolicy.t) (op : policy_op)
  : LRUKeyAccessPolicy.t :=
  match op with
  | Accessed key => snd (LRUKeyAccessPolicy.key_accessed key p)
  | ToRemove => snd (LRUKeyAccessPolicy.key_to_remove p)
  end.

Definition policy_after (ops : list policy_op) : LRUKeyAccessPolicy.t :=
  foldl policy_step LRUKeyAccessPolicy.init ops.

Definition new_cache (capacity : bound) : Cache.t :=
  Cache.mk (HashMapBasedStorage.init capacity) LRUKeyAccessPolicy.init.

Definition tick (n : nat) : Z := Z.of_nat n.

Definition fresh_level (name : string) (capacity : bound) : CacheLevel.t :=
  CacheLevel.mk name (new_cache capacity).

(** The chain of the program's own driver: three empty levels of
    capacity five. *)
Definition three_levels : list CacheLevel.t :=
  [fresh_level "L1" (Finite 5); fresh_level "L2" (Finite 5); fresh_level "L3" (Finite 5)].

(** An empty front level before a level that holds ["x"]. *)
Definition populated_level : CacheLevel.t :=
  CacheLevel.mk "L2" (snd (Cache.put "x" (VInt 120) (new_cache (Finite 5)))).
Definition two_levels : list CacheLevel.t :=
  [fresh_level "L1" (Finite 5); populated_level].

(** The error kinds of the specification, by the exception that stands
    for each in the program: [StorageFullException] is raised by
    [HashMapBasedStorage.put], [KeyError] by a lookup or removal of an
    absent key, and the [AttributeError] on [val] by
    [LRUKeyAccessPolicy.key_to_remove] when the list gives it no
    node. *)
Definition error_kind (e : exn) : option string :=
  match e with
  | StorageFullException => Some "StorageFull"
  | KeyError _ => Some "NotFound"
  | AttributeError attr => if decide (attr = "val") then Some "PolicyEmpty" else None
  | RecursionError => None
  end.

(** The cache of a level holds [key] with [value]; it does not hold
    [key]. *)
Definition holds (key : string) (value : pyval) (l : CacheLevel.t) : Prop :=
  Cache.get key (CacheLevel.cache_provider l) = (Ret value, CacheLevel.cache_provider l).

Definition lacks (key : string) (l : CacheLevel.t) : Prop :=
  HashMapBasedStorage.db (Cache.storage (CacheLevel.cache_provider l)) !! key = None.

(** A sequence of [Cache.put] calls, stopping at the first exception. *)
Fixpoint run_puts (ops : list (string * pyval)) : M Cache.t unit :=
  match ops with
  | [] => ret tt
  | (key, value) :: ops => Cache.put key value ;> run_puts ops
  end.

(** A sequence of [Cache.put] and [Cache.get] calls. *)
Inductive cache_op : Type :=
  | Put (key : string) (value : pyval)
  | Get (key : string).

Fixpoint run_cache (ops : list cache_op) : M Cache.t unit :=
  match ops with
  | [] => ret tt
  | Put key value :: ops => Cache.put key value ;> run_cache ops
  | Get key :: ops => Cache.get key ;> run_cache ops
  end.

(** What the storage holds after the writes [ops] when none is lost. *)
Definition written (m : gmap string pyval) (ops : list (string * pyval))
  : gmap string pyval :=
  foldl (λ m kv, <[kv.1 := kv.2]> m) m ops.

(** The keys of a sequence of writes, and the value last written for a
    key. *)
Definition keys_of (ops : list (string * pyval)) : gset string :=
  list_to_set (ops.*1).

Fixpoint last_written (key : string) (ops : list (string * pyval)) : option pyval :=
  match ops with
  | [] => None
  | (k, v) :: ops =>
    match last_written key ops with
    | Some v' => Some v'
    | None => if decide (k = key) then Some v else None
    end
  end.

(** No [put] of the sequence meets a full storage: the keys written
    before the final [put] are fewer than the capacity. *)
Definition below_capacity (capacity : bound) (ops : list (string * pyval)) : Prop :=
  match capacity with
  | Finite n => size (keys_of (removelast ops)) < n
  | Infinite => True
  end.

(** The position of the last access to [k] in a sequence of accesses,
    counted from one; zero when [k] is not accessed. *)
Fixpoint last_pos_from (i : nat) (k : string) (accesses : list string) : nat :=
  match accesses with
  | [] => 0
  | k' :: accesses =>
    match last_pos_from (S i) k accesses with
    | 0 => if decide (k' = k) then i else 0
    | j => j
    end
  end.
Definition last_pos : string → list string → nat := last_pos_from 1.

(** The victim is the least recently used key: every key still tracked
    after [key_to_remove] was accessed after the victim. *)
Definition lru_respected (accesses : list string) : Prop :=
  ∀ victim p,
    LRUKeyAccessPolicy.key_to_remove (policy_after (Accessed <$> accesses))
      = (Ret victim, p) →
    ∀ k, is_Some (LRUKeyAccessPolicy.hashmap p !! k) →
         last_pos victim accesses < last_pos k accesses.

(** [key]'s node is at the head of the recency list. *)
Definition most_recent (p : LRUKeyAccessPolicy.t) (key : string) : Prop :=
  ∃ node, LRUKeyAccessPolicy.hashmap p !! key = Some node ∧
          LL.head (LRUKeyAccessPolicy.ll p) = Some node.

(** The nodes met from [o] along [next], or [None] when more than
    [fuel] nodes are met. *)
Fixpoint walk (l : LL.t) (fuel : nat) (o : option nat) : option (list nat) :=
  match o with
  | None => Some []
  | Some r =>
    match fuel with
    | 0 => None
    | S fuel => (r ::.) <$> walk l fuel (next (LL.node_at l r))
    end
  end.

(** The invariant of the recency list: following [next] from the head
    ends (no cycle) at the tail, the head has no predecessor and the
    tail no successor, and every tracked node is met exactly once. *)
Definition recency_invariant (p : LRUKeyAccessPolicy.t) : bool :=
  let l := LRUKeyAccessPolicy.ll p in
  match walk l (length (LL.nodes l)) (LL.head l) with
  | None => false
  | Some ns =>
    bool_decide (last ns = LL.tail l) &&
    bool_decide (from_option (λ h, prev (LL.node_at l h)) None (LL.head l) = None) &&
    bool_decide (from_option (λ t, next (LL.node_at l t)) None (LL.tail l) = None) &&
    forallb (λ kn, Nat.eqb (length (filter (λ r, r = kn.2) ns)) 1)
            (map_to_list (LRUKeyAccessPolicy.hashmap p))
  end.

(** ** Definitions used by the proofs *)

(** The two recursive calls are made on a detached node of a
    non-empty list whose head is another node. *)
Definition recursive_call_state (node : nat) (self : LL.t) : Prop :=
  LL.head self ≠ Some node ∧ LL.head self ≠ None ∧
  prev (LL.node_at self node) = None ∧ next (LL.node_at self node) = None.

(** A node is linked when it is the head or has a predecessor. *)
Definition linked (self : LL.t) (m : nat) : Prop :=
  LL.head self = Some m ∨ prev (LL.node_at self m) ≠ None.

Definition head_allocated (self : LL.t) : Prop :=
  ∀ h, LL.head self = Some h → h < length (LL.nodes self).

(** The states in which [key_accessed] cannot fail: the head is an
    allocated node and every tracked node is linked. *)
Definition accessible (self : LRUKeyAccessPolicy.t) : Prop :=
  head_allocated (LRUKeyAccessPolicy.ll self) ∧
  ∀ k n, LRUKeyAccessPolicy.hashmap self !! k = Some n →
         linked (LRUKeyAccessPolicy.ll self) n.

(** Every tracked node carries the key it is tracked under. *)
Definition index_sound (self : LRUKeyAccessPolicy.t) : Prop :=
  ∀ k n, LRUKeyAccessPolicy.hashmap self !! k = Some n →
         val (LL.node_at (LRUKeyAccessPolicy.ll self) n) = k.

(** [len(self.db) == self.capacity] holds of the storage. *)
Definition full (st : HashMapBasedStorage.t) : bool :=
  len_eq (size (HashMapBasedStorage.db st)) (HashMapBasedStorage.capacity st).

(** The dict of the cache's storage. *)
Definition db_of (c : Cache.t) : gmap string pyval :=
  HashMapBasedStorage.db (Cache.storage c).

(** [below_capacity] for a cache that already holds keys. *)
Definition room (c : Cache.t) (ops : list (string * pyval)) : Prop :=
  match HashMapBasedStorage.capacity (Cache.storage c) with
  | Finite n => size (dom (db_of c) ∪ keys_of (removelast ops)) < n
  | Infinite => True
  end.

(** ** Definitions for the further properties *)


(** The queue holds no more items than its [maxlen]. *)
Definition bounded {A} (d : deque A) : Prop :=
  match maxlen d with
  | Some n => length (items d) ≤ n
  | None => True
  end.



(** The exceptions [Cache.put] can raise. *)
Definition attribute_or_key_error (e : exn) : Prop :=
  (∃ attr, e = AttributeError attr) ∨ (∃ k, e = KeyError k).


(** A level of capacity five before a level of capacity zero, whose
    cache cannot take a write. *)
Definition levels_with_zero : list CacheLevel.t :=
  [fresh_level "L1" (Finite 5); fresh_level "L2" (Finite 0)].

(** The recency list of a policy whose live keys were each accessed
    once, oldest first: the keys own the nodes [lo], [lo + 1], ... in
    that order, the tail is the oldest, the head the newest, and every
    [prev] reference leads to the next newer node. *)
Definition fifo_shape (p : LRUKeyAccessPolicy.t) (lo : nat) (live : list string) : Prop :=
  NoDup live ∧
  length (LL.nodes (LRUKeyAccessPolicy.ll p)) = lo + length live ∧
  LL.head (LRUKeyAccessPolicy.ll p)
    = (if decide (live = []) then None else Some (lo + length live - 1)) ∧
  LL.tail (LRUKeyAccessPolicy.ll p)
    = (if decide (live = []) then None else Some lo) ∧
  (∀ j k, live !! j = Some k →
     LRUKeyAccessPolicy.hashmap p !! k = Some (lo + j) ∧
     val (LL.node_at (LRUKeyAccessPolicy.ll p) (lo + j)) = k) ∧
  (∀ k, k ∉ live → LRUKeyAccessPolicy.hashmap p !! k = None) ∧
  (∀ j, S j < length live →
     prev (LL.node_at (LRUKeyAccessPolicy.ll p) (lo + j)) = Some (lo + S j)).

(** The last [K] elements of a list. *)
Definition window {A} (K : nat) (l : list A) : list A := drop (length l - K) l.

(** A cache of capacity [K] that holds the writes [live], oldest
    first, each key written once. *)
Definition cache_fifo (c : Cache.t) (K lo : nat) (live : list (string * pyval)) : Prop :=
  HashMapBasedStorage.capacity (Cache.storage c) = Finite K ∧
  db_of c = list_to_map live ∧
  length live ≤ K ∧
  fifo_shape (Cache.key_access_policy c) lo (live.*1).

(** The driver's loop, [for key, value in ops: mlcache.put(key, value)]:
    it ends at the first write that raises. *)
Fixpoint write_all (time : nat → Z) (ops : list (string * pyval))
    (m : MultilevelCache.t) (clk : nat) : outcome unit * (MultilevelCache.t * nat) :=
  match ops with
  | [] => (Ret tt, (m, clk))
  | (key, value) :: ops =>
    match MultilevelCache.put time key value m clk with
    | (Ret _, (m, clk)) => write_all time ops m clk
    | (Exc e, s) => (Exc e, s)
    end
  end.

(** A level whose cache is new and has room for at least one key. *)
Definition new_level (l : CacheLevel.t) : Prop :=
  ∃ K, 1 ≤ K ∧ CacheLevel.cache_provider l = new_cache (Finite K).

(** The storage of the level holds the last writes of [ops], as many
    as its capacity allows, and nothing else. *)
Definition keeps_last (ops : list (string * pyval)) (l : CacheLevel.t) : Prop :=
  ∃ K, HashMapBasedStorage.capacity (Cache.storage (CacheLevel.cache_provider l)) = Finite K ∧
       db_of (CacheLevel.cache_provider l) = list_to_map (drop (length ops - K) ops).

Definition level_fifo (seen : list (string * pyval)) (l : CacheLevel.t) : Prop :=
  ∃ K lo, 1 ≤ K ∧ cache_fifo (CacheLevel.cache_provider l) K lo (window K seen).

(** * Properties *)

(** ** The recency list *)

Section LL_facts.

Implicit Types (self : LL.t) (node r : nat) (f : Node → Node).

Local Arguments LL.write : simpl never.
Local Arguments LL.node_at : simpl never.

Lemma node_at_write_ne self r r' f :
  r ≠ r' → LL.node_at (LL.write r f self) r' = LL.node_at self r'.
Proof.
  intros Hne. unfold LL.node_at, LL.write; simpl.
  by rewrite list_lookup_insert_ne.
Qed.

Lemma node_at_write_eq self r f :
  r < length (LL.nodes self) →
  LL.node_at (LL.write r f self) r = f (LL.node_at self r).
Proof.
  intros Hlt. unfold LL.node_at, LL.write; simpl.
  by rewrite list_lookup_insert_eq.
Qed.

Lemma node_at_write_ge self r f :
  length (LL.nodes self) ≤ r → LL.write r f self = self.
Proof.
  intros Hge. unfold LL.write. rewrite list_insert_ge by done. by destruct self.
Qed.

(** After [node.prev = node.next = None] the node is detached. *)
Lemma cleared_detached self node :
  let self' := LL.write node (λ n, mkNode (val n) (prev n) None)
                 (LL.write node (λ n, mkNode (val n) None (next n)) self) in
  prev (LL.node_at self' node) = None ∧ next (LL.node_at self' node) = None.
Proof.
  simpl. destruct (decide (node < length (LL.nodes self))) as [Hlt|Hge].
  - rewrite node_at_write_eq; [|by unfold LL.write; simpl; rewrite length_insert].
    simpl. by rewrite node_at_write_eq.
  - rewrite (node_at_write_ge self) by lia. rewrite node_at_write_ge by lia.
    unfold LL.node_at. by rewrite lookup_ge_None_2 by lia.
Qed.

Lemma prev_write_prev self r m v :
  prev (LL.node_at (LL.write r (λ n, mkNode (val n) v (next n)) self) m) =
  if decide (r = m ∧ r < length (LL.nodes self)) then v
  else prev (LL.node_at self m).
Proof.
  destruct (decide (r = m)) as [->|Hne].
  - destruct (decide (m < length (LL.nodes self))) as [Hlt|Hge].
    + rewrite node_at_write_eq by done. by rewrite decide_True.
    + rewrite node_at_write_ge by lia. by rewrite decide_False by (intros [_ ?]; lia).
  - rewrite node_at_write_ne by done. by rewrite decide_False by (by intros [? _]).
Qed.

Lemma prev_write_next self r m v :
  prev (LL.node_at (LL.write r (λ n, mkNode (val n) (prev n) v) self) m) =
  prev (LL.node_at self m).
Proof.
  destruct (decide (r = m)) as [->|Hne].
  - destruct (decide (m < length (LL.nodes self))) as [Hlt|Hge].
    + by rewrite node_at_write_eq.
    + by rewrite node_at_write_ge by lia.
  - by rewrite node_at_write_ne.
Qed.

Lemma length_write self r f :
  length (LL.nodes (LL.write r f self)) = length (LL.nodes self).
Proof. unfold LL.write; simpl. by rewrite length_insert. Qed.

Lemma val_write self r m f :
  (∀ n, val (f n) = val n) →
  val (LL.node_at (LL.write r f self) m) = val (LL.node_at self m).
Proof.
  intros Hf. destruct (decide (r = m)) as [->|Hne].
  - destruct (decide (m < length (LL.nodes self))) as [Hlt|Hge].
    + by rewrite node_at_write_eq.
    + by rewrite node_at_write_ge by lia.
  - by rewrite node_at_write_ne.
Qed.

(** Promoting such a node does not recurse, returns, and leaves the
    node at the head; the nodes keep their keys and those that were
    linked stay linked. *)
Lemma make_node_head_body_detached node self :
  recursive_call_state node self →
  ∃ self',
    (∀ rec', LL.make_node_head_body rec' node self = (Ret tt, self')) ∧
    LL.head self' = Some node ∧ LL.tail self' = LL.tail self ∧
    length (LL.nodes self') = length (LL.nodes self) ∧
    (∀ m, val (LL.node_at self' m) = val (LL.node_at self m)) ∧
    (head_allocated self → ∀ m, linked self m → linked self' m).
Proof.
  intros (Hne & Hnn & Hp & Hn).
  destruct (LL.head self) as [h|] eqn:Hh; [|done].
  eexists (LL.mk _ (Some node) (LL.tail self)). split.
  { intros rec'.
    unfold LL.make_node_head_body, bind, gets; simpl. rewrite Hh.
    destruct (decide (Some node = Some h)) as [|_]; [congruence|].
    destruct (decide (Some h = None)) as [|_]; [done|].
    destruct (decide (_ ∧ _)) as [_|[]]; [|done].
    simpl. rewrite Hh. reflexivity. }
  split_and!; [done..| | |].
  { simpl. by rewrite !length_insert. }
  { intros m.
    change (val (LL.node_at (LL.write h (λ n, mkNode (val n) (Some node) (next n))
              (LL.write node (λ n, mkNode (val n) (prev n) (Some h)) self)) m) =
            val (LL.node_at self m)).
    by rewrite !val_write. }
  intros Halloc m [Hm|Hm]; right.
  - assert (m = h) as -> by congruence.
    change (prev (LL.node_at (LL.write h (λ n, mkNode (val n) (Some node) (next n))
              (LL.write node (λ n, mkNode (val n) (prev n) (Some h)) self)) h) ≠ None).
    rewrite prev_write_prev, decide_True; [done|].
    split; [done|]. rewrite length_write. by apply Halloc.
  - change (prev (LL.node_at (LL.write h (λ n, mkNode (val n) (Some node) (next n))
              (LL.write node (λ n, mkNode (val n) (prev n) (Some h)) self)) m) ≠ None).
    rewrite prev_write_prev. case_decide; [done|]. by rewrite prev_write_next.
Qed.

Lemma make_node_head_body_ext rec1 rec2 node self :
  (∀ s, recursive_call_state node s → rec1 node s = rec2 node s) →
  LL.make_node_head_body rec1 node self = LL.make_node_head_body rec2 node self.
Proof.
  intros Hrec. unfold LL.make_node_head_body, bind, gets; simpl.
  destruct (decide (Some node = LL.head self)) as [|Hne]; [done|].
  destruct (decide (LL.head self = None)) as [|Hnn]; [done|].
  destruct (decide (_ ∧ _)) as [|_]; [done|].
  destruct (prev (LL.node_at self node)) as [p|] eqn:Hp,
           (next (LL.node_at self node)) as [n|] eqn:Hn;
    simpl; rewrite ?Hp, ?Hn; simpl; try done.
  - apply Hrec. split_and!; simpl; try done; apply cleared_detached.
  - apply Hrec. split_and!; simpl; try done; apply cleared_detached.
Qed.

(** Depth two is enough for [make_node_head]: any greater recursion
    limit gives the same outcome and the same state. *)
Lemma make_node_head_depth d node self :
  LL.make_node_head_rec (S (S d)) node self = LL.make_node_head_rec 2 node self.
Proof.
  simpl. apply make_node_head_body_ext. intros s Hs.
  destruct (make_node_head_body_detached node s Hs)
    as (s' & Hs' & _).
  by rewrite !Hs'.
Qed.

Lemma make_node_head_unfold node self :
  LL.make_node_head node self =
  LL.make_node_head_body (LL.make_node_head_body (λ _, raise RecursionError)) node self.
Proof.
  unfold LL.make_node_head.
  change recursion_limit with (S (S 998)). by rewrite make_node_head_depth.
Qed.

Lemma node_at_mk self h tl m :
  LL.node_at (LL.mk (LL.nodes self) h tl) m = LL.node_at self m.
Proof. done. Qed.

Lemma node_at_nodes self1 self2 m :
  LL.nodes self1 = LL.nodes self2 → LL.node_at self1 m = LL.node_at self2 m.
Proof. unfold LL.node_at. by intros ->. Qed.

(** Promoting a node that is linked, or detached, returns; the node
    becomes the head and the nodes that were linked stay linked. *)
Lemma make_node_head_linked node self :
  head_allocated self →
  linked self node ∨
    (prev (LL.node_at self node) = None ∧ next (LL.node_at self node) = None) →
  ∃ self', LL.make_node_head node self = (Ret tt, self') ∧
    LL.head self' = Some node ∧
    length (LL.nodes self') = length (LL.nodes self) ∧
    ∀ m, linked self m → linked self' m.
Proof.
  intros Halloc Hnode. rewrite make_node_head_unfold.
  unfold LL.make_node_head_body at 1. unfold bind, gets; simpl.
  destruct (decide (Some node = LL.head self)) as [|Hne]; [by exists self|].
  destruct (decide (LL.head self = None)) as [Hnone|Hnn].
  { eexists. split; [done|]. split_and!; [done|by rewrite !length_write|].
    intros m [Hm|Hm]; [congruence|]. right.
    rewrite prev_write_prev. case_decide; [done|].
    by rewrite prev_write_next, node_at_mk. }
  destruct (decide (_ ∧ _)) as [[Hp Hn]|Hnd].
  { destruct (make_node_head_body_detached node self) as (s' & Hs' & Hhd & _ & Hlen & _ & Hlk).
    { by split_and!. }
    exists s'. split_and!; eauto.
    specialize (Hs' (λ _, raise RecursionError)). revert Hs'.
    unfold LL.make_node_head_body, bind, gets; simpl.
    destruct (decide (Some node = LL.head self)) as [|_]; [done|].
    destruct (decide (LL.head self = None)) as [|_]; [done|].
    rewrite Hp, Hn. by destruct (decide (_ ∧ _)) as [_|[]]. }
  destruct (prev (LL.node_at self node)) as [p|] eqn:Hp.
  2: { destruct Hnode as [[|]|[_ Hn]]; [congruence|done|].
       destruct Hnd. split; [done|]. by rewrite Hn. }
  destruct (next (LL.node_at self node)) as [n|] eqn:Hn;
    simpl; rewrite ?Hp, ?Hn; simpl.
  all: match goal with |- ∃ _, LL.make_node_head_body _ _ ?s = _ ∧ _ =>
         destruct (make_node_head_body_detached node s)
           as (s' & Hs' & Hhd & _ & Hlen & _ & Hlk);
         [split_and!; simpl; try done; apply cleared_detached|];
         exists s'; split_and!; [apply Hs'|done|..]
       end.
  1,3: rewrite Hlen, !length_write; simpl; by rewrite ?length_write, ?length_insert.
  all: intros m Hm; destruct (decide (m = node)) as [->|Hmn]; [by left|].
  all: apply Hlk;
    [intros h Hh; rewrite !length_write; simpl;
     rewrite ?length_write, ?length_insert; by apply Halloc|].
  all: destruct Hm as [Hm|Hm]; [by left|right].
  all: rewrite prev_write_next, prev_write_prev, decide_False by (by intros [? _]).
  - rewrite prev_write_prev. case_decide; [done|]. by rewrite prev_write_next.
  - rewrite (node_at_nodes _ (LL.write p (λ n, mkNode (val n) (prev n) None) self))
      by done.
    by rewrite prev_write_next.
Qed.

(** Whatever its outcome, [make_node_head] allocates nothing and
    leaves every node its key. *)
Lemma make_node_head_val node self o self' :
  LL.make_node_head node self = (o, self') →
  length (LL.nodes self') = length (LL.nodes self) ∧
  ∀ m, val (LL.node_at self' m) = val (LL.node_at self m).
Proof.
  rewrite make_node_head_unfold.
  unfold LL.make_node_head_body at 1. unfold bind, gets; simpl.
  destruct (decide (Some node = LL.head self)) as [|Hne]; [by intros [= <- <-]|].
  destruct (decide (LL.head self = None)) as [Hnone|Hnn].
  { intros [= <- <-]. split; [by rewrite !length_write|].
    intros m. by rewrite !val_write. }
  destruct (decide (_ ∧ _)) as [[Hp Hn]|Hnd].
  { destruct (make_node_head_body_detached node self) as (s' & Hs' & _ & _ & Hlen & Hval & _).
    { by split_and!. }
    specialize (Hs' (λ _, raise RecursionError)). revert Hs'.
    unfold LL.make_node_head_body, bind, gets; simpl.
    destruct (decide (Some node = LL.head self)) as [|_]; [done|].
    destruct (decide (LL.head self = None)) as [|_]; [done|].
    rewrite Hp, Hn. destruct (decide (_ ∧ _)) as [_|[]]; [|done].
    intros ->. by intros [= <- <-]. }
  destruct (prev (LL.node_at self node)) as [p|] eqn:Hp.
  2: { destruct (next (LL.node_at self node)) eqn:Hn;
         simpl; rewrite ?Hp, ?Hn; simpl; by intros [= <- <-]. }
  destruct (next (LL.node_at self node)) as [n|] eqn:Hn;
    simpl; rewrite ?Hp, ?Hn; simpl.
  all: match goal with |- LL.make_node_head_body _ _ ?s = _ → _ =>
         destruct (make_node_head_body_detached node s)
           as (s' & Hs' & _ & _ & Hlen & Hval & _);
         [split_and!; simpl; try done; apply cleared_detached|];
         rewrite Hs'; intros [= <- <-]; split
       end.
  1,3: rewrite Hlen, !length_write; simpl; by rewrite ?length_write, ?length_insert.
  all: intros m; rewrite Hval, !val_write by done.
  - done.
  - rewrite (node_at_nodes _ (LL.write p (λ n, mkNode (val n) (prev n) None) self))
      by done.
    by rewrite val_write.
Qed.

(** A call that returns leaves the node at the head. *)
Lemma make_node_head_head node self self' :
  LL.make_node_head node self = (Ret tt, self') → LL.head self' = Some node.
Proof.
  rewrite make_node_head_unfold.
  unfold LL.make_node_head_body at 1. unfold bind, gets; simpl.
  destruct (decide (Some node = LL.head self)) as [|Hne]; [by intros [= <-]|].
  destruct (decide (LL.head self = None)) as [|Hnn]; [by intros [= <-]|].
  destruct (decide (_ ∧ _)) as [[Hp Hn]|_].
  { destruct (LL.head self); [|done]. by intros [= <-]. }
  destruct (prev (LL.node_at self node)) as [p|] eqn:Hp,
           (next (LL.node_at self node)) as [n|] eqn:Hn;
    simpl; rewrite ?Hp, ?Hn; simpl; try done.
  all: match goal with |- LL.make_node_head_body _ _ ?s = _ → _ =>
         destruct (make_node_head_body_detached node s)
           as (s' & Hs' & Hhd & _);
         [split_and!; simpl; try done; apply cleared_detached|]
       end.
  all: rewrite Hs'; by intros [= <-].
Qed.

End LL_facts.

(** ** The policy *)

Section Policy_facts.

Implicit Types (self : LRUKeyAccessPolicy.t) (key : string).

Lemma make_node_head_exc node (l l' : LL.t) e :
  LL.make_node_head node l = (Exc e, l') → e = AttributeError "next" ∧ l' = l.
Proof.
  rewrite make_node_head_unfold.
  unfold LL.make_node_head_body at 1. unfold bind, gets; simpl.
  destruct (decide (Some node = LL.head l)) as [|Hne]; [done|].
  destruct (decide (LL.head l = None)) as [|Hnn]; [done|].
  destruct (decide (_ ∧ _)) as [[Hp Hn]|_].
  { destruct (LL.head l); done. }
  destruct (prev (LL.node_at l node)) as [p|] eqn:Hp,
           (next (LL.node_at l node)) as [n|] eqn:Hn;
    simpl; rewrite ?Hp, ?Hn; simpl; try done.
  all: try by intros [= <- <-].
  all: match goal with |- LL.make_node_head_body _ _ ?s = _ → _ =>
         destruct (make_node_head_body_detached node s)
           as (s' & Hs' & Hhd & _);
         [split_and!; simpl; try done; apply cleared_detached|]
       end.
  all: by rewrite Hs'.
Qed.

(** The index after [key_accessed]: the key is tracked, nothing else
    changes. *)
Lemma key_accessed_hashmap key self o self' :
  LRUKeyAccessPolicy.key_accessed key self = (o, self') →
  ∃ node, LRUKeyAccessPolicy.hashmap self' = <[key := node]> (LRUKeyAccessPolicy.hashmap self)
          ∧ LRUKeyAccessPolicy.hashmap self' !! key = Some node
          ∧ (o = Ret tt → LL.head (LRUKeyAccessPolicy.ll self') = Some node).
Proof.
  unfold LRUKeyAccessPolicy.key_accessed, bind, gets; simpl.
  destruct (LRUKeyAccessPolicy.hashmap self !! key) as [node|] eqn:Hk.
  - unfold LRUKeyAccessPolicy.in_ll, zoom.
    destruct (LL.make_node_head node _) as [r l'] eqn:Hm. intros [= <- <-]; simpl.
    exists node. split_and!; [by rewrite insert_id|done|].
    intros ->. by eapply make_node_head_head.
  - unfold LRUKeyAccessPolicy.in_ll, zoom; simpl.
    destruct (LL.make_node_head _ _) as [r l'] eqn:Hm. intros [= <- <-]; simpl.
    eexists. split_and!; [done|by rewrite lookup_insert_eq|].
    intros ->. by eapply make_node_head_head.
Qed.

Lemma key_accessed_exc key self e self' :
  LRUKeyAccessPolicy.key_accessed key self = (Exc e, self') → e = AttributeError "next".
Proof.
  unfold LRUKeyAccessPolicy.key_accessed, bind, gets; simpl.
  destruct (LRUKeyAccessPolicy.hashmap self !! key) as [node|] eqn:Hk;
    unfold LRUKeyAccessPolicy.in_ll, zoom; simpl;
    destruct (LL.make_node_head _ _) as [r l'] eqn:Hm; intros [= -> <-];
    by destruct (make_node_head_exc _ _ _ _ Hm).
Qed.

Lemma linked_allocated (l : LL.t) m :
  head_allocated l → linked l m → m < length (LL.nodes l).
Proof.
  intros Halloc [Hm|Hm]; [by apply Halloc|].
  destruct (decide (m < length (LL.nodes l))) as [|Hge]; [done|].
  destruct Hm. unfold LL.node_at. by rewrite lookup_ge_None_2 by lia.
Qed.

Lemma accessible_init : accessible LRUKeyAccessPolicy.init.
Proof. split; [by intros h|]. intros k n. simpl. by rewrite lookup_empty. Qed.

Lemma key_accessed_accessible key self :
  accessible self →
  ∃ self', LRUKeyAccessPolicy.key_accessed key self = (Ret tt, self') ∧ accessible self'.
Proof.
  intros [Halloc Htracked].
  unfold LRUKeyAccessPolicy.key_accessed, bind, gets; simpl.
  destruct (LRUKeyAccessPolicy.hashmap self !! key) as [node|] eqn:Hk.
  - destruct (make_node_head_linked node (LRUKeyAccessPolicy.ll self))
      as (l' & Hl' & Hhd & Hlen & Hlk); [done|left; eauto|].
    unfold LRUKeyAccessPolicy.in_ll, zoom. rewrite Hl'.
    eexists. split; [done|]. split; simpl.
    + intros h. rewrite Hhd, Hlen. intros [= <-].
      eapply linked_allocated; eauto.
    + intros k n Hn. eauto.
  - set (l1 := LL.mk (LL.nodes (LRUKeyAccessPolicy.ll self) ++ [mkNode key None None])
                 (LL.head (LRUKeyAccessPolicy.ll self))
                 (LL.tail (LRUKeyAccessPolicy.ll self))).
    set (node := length (LL.nodes (LRUKeyAccessPolicy.ll self))).
    assert (Halloc1 : head_allocated l1).
    { intros h Hh. unfold l1; simpl. rewrite length_app.
      apply Halloc in Hh. lia. }
    assert (Hnew : LL.node_at l1 node = mkNode key None None).
    { unfold LL.node_at, l1, node; simpl.
      by rewrite lookup_app_r, Nat.sub_diag by lia. }
    assert (Hold : ∀ m, linked (LRUKeyAccessPolicy.ll self) m → linked l1 m).
    { intros m Hm. pose proof (linked_allocated _ _ Halloc Hm) as Hlt.
      destruct Hm as [Hm|Hm]; [by left|right].
      unfold LL.node_at, l1 in *; simpl. by rewrite lookup_app_l. }
    destruct (make_node_head_linked node l1)
      as (l' & Hl' & Hhd & Hlen & Hlk); [done|right; by rewrite Hnew|].
    unfold LRUKeyAccessPolicy.in_ll, zoom; simpl. fold l1 node. rewrite Hl'.
    eexists. split; [done|]. split; simpl.
    + intros h. rewrite Hhd, Hlen. intros [= <-].
      unfold l1, node; simpl. rewrite length_app; simpl. lia.
    + intros k n. rewrite lookup_insert. case_decide as Hkk.
      * intros [= <-]. by left.
      * intros Hn. eauto.
Qed.

Local Arguments LL.write : simpl never.
Local Arguments LL.node_at : simpl never.

Lemma index_sound_init : index_sound LRUKeyAccessPolicy.init.
Proof. intros k n. simpl. by rewrite lookup_empty. Qed.

Lemma key_accessed_index_sound key self o self' :
  accessible self → index_sound self →
  LRUKeyAccessPolicy.key_accessed key self = (o, self') → index_sound self'.
Proof.
  intros [Halloc Htracked] Hsound.
  unfold LRUKeyAccessPolicy.key_accessed, bind, gets; simpl.
  destruct (LRUKeyAccessPolicy.hashmap self !! key) as [node|] eqn:Hk.
  - unfold LRUKeyAccessPolicy.in_ll, zoom.
    destruct (LL.make_node_head node _) as [r l'] eqn:Hm. intros [= <- <-].
    apply make_node_head_val in Hm as [_ Hval].
    intros k n Hn. simpl in *. rewrite Hval. by apply Hsound.
  - unfold LRUKeyAccessPolicy.in_ll, zoom; simpl.
    destruct (LL.make_node_head _ _) as [r l'] eqn:Hm. intros [= <- <-].
    apply make_node_head_val in Hm as [_ Hval].
    intros k n. simpl. rewrite Hval, lookup_insert. unfold LL.node_at; simpl.
    case_decide as Hkk.
    + intros [= <-]. by rewrite lookup_app_r, Nat.sub_diag by lia.
    + intros Hn. pose proof (linked_allocated _ _ Halloc (Htracked _ _ Hn)).
      rewrite lookup_app_l by done. by apply Hsound.
Qed.

(** What [LL.key_to_remove] does, by cases. *)
Lemma ll_key_to_remove_cases (l l' : LL.t) o :
  LL.key_to_remove l = (o, l') →
  (LL.head l = LL.tail l ∧ o = Ret (LL.head l) ∧ l' = LL.mk (LL.nodes l) None None) ∨
  (LL.head l ≠ LL.tail l ∧ (∃ e, o = Exc e) ∧ l' = l) ∨
  (LL.head l ≠ LL.tail l ∧ ∃ t q,
     LL.tail l = Some t ∧ prev (LL.node_at l t) = Some q ∧ o = Ret (Some t) ∧
     LL.head l' = LL.head l ∧ length (LL.nodes l') = length (LL.nodes l) ∧
     ∀ m, LL.node_at l' m = LL.node_at (LL.write q (λ n, mkNode (val n) (prev n) None) l) m).
Proof.
  unfold LL.key_to_remove, bind, gets; simpl.
  destruct (decide (LL.head l = LL.tail l)) as [Heq|Hne].
  { intros [= <- <-]. by left. }
  intros Hrun. right. revert Hrun.
  destruct (LL.tail l) as [t|] eqn:Ht; simpl.
  2: { intros [= <- <-]. left. eauto. }
  destruct (prev (LL.node_at l t)) as [q|] eqn:Hq; simpl.
  2: { intros [= <- <-]. left. eauto. }
  rewrite Ht; simpl. intros [= <- <-]. right. split; [done|].
  exists t, q. split_and!; try done. simpl. by rewrite length_insert.
Qed.

(** Whatever its outcome, [key_to_remove] keeps the policy in a state
    in which [key_accessed] cannot fail. *)
Lemma key_to_remove_accessible self o self' :
  accessible self → index_sound self →
  LRUKeyAccessPolicy.key_to_remove self = (o, self') →
  accessible self' ∧ index_sound self'.
Proof.
  intros [Halloc Htracked] Hsound.
  unfold LRUKeyAccessPolicy.key_to_remove, bind, LRUKeyAccessPolicy.in_ll, zoom.
  destruct (LL.key_to_remove _) as [o1 l'] eqn:Hll.
  assert (Hsub : ∀ hm' : gmap string nat,
            (hm' = LRUKeyAccessPolicy.hashmap self ∨
             ∃ k, hm' = delete k (LRUKeyAccessPolicy.hashmap self)) →
            ∀ k n, hm' !! k = Some n → LRUKeyAccessPolicy.hashmap self !! k = Some n).
  { intros hm' [->|[k0 ->]] k n; [done|]. rewrite lookup_delete. by case_decide. }
  apply ll_key_to_remove_cases in Hll
    as [(Heq & -> & ->)|[(Hne & [e ->] & ->)|(Hne & t & q & Ht & Hq & -> & Hhd & Hlen & Hns)]].
  - (* head == tail *)
    assert (Hgoal : ∀ hm' : gmap string nat,
              (∀ k n, hm' !! k = Some n → LRUKeyAccessPolicy.hashmap self !! k = Some n) →
              (∀ k n, hm' !! k = Some n →
                      LL.head (LRUKeyAccessPolicy.ll self) ≠ Some n) →
              accessible (LRUKeyAccessPolicy.mk hm' (LL.mk (LL.nodes (LRUKeyAccessPolicy.ll self)) None None))
              ∧ index_sound (LRUKeyAccessPolicy.mk hm' (LL.mk (LL.nodes (LRUKeyAccessPolicy.ll self)) None None))).
    { intros hm' Hin Hnh. split; [split|].
      - by intros h.
      - intros k n Hn; simpl in *. right.
        destruct (Htracked k n (Hin _ _ Hn)) as [Hh|Hp]; [|done].
        by destruct (Hnh _ _ Hn).
      - intros k n Hn; simpl in *. by apply Hsound, Hin. }
    destruct (LL.head (LRUKeyAccessPolicy.ll self)) as [h|] eqn:Hh; simpl.
    2: { intros [= <- <-]. apply Hgoal; [done|]. by intros k n _. }
    unfold gets; simpl.
    destruct (LRUKeyAccessPolicy.hashmap self !! val _) as [n'|] eqn:Hk; simpl.
    + intros [= <- <-]. apply Hgoal.
      * apply Hsub. eauto.
      * intros k n Hn [= ->].
        rewrite lookup_delete in Hn. case_decide as Hkk; [done|].
        apply Hkk. rewrite node_at_mk. by apply Hsound.
    + intros [= <- <-]. apply Hgoal; [done|].
      intros k n Hn [= ->]. apply Hsound in Hn as Hv.
      rewrite node_at_mk in Hk. congruence.
  - (* an exception in the list *)
    simpl. intros [= <- <-]. by destruct self.
  - (* the tail is unlinked *)
    assert (Hgoal : ∀ hm' : gmap string nat,
              (∀ k n, hm' !! k = Some n → LRUKeyAccessPolicy.hashmap self !! k = Some n) →
              accessible (LRUKeyAccessPolicy.mk hm' l')
              ∧ index_sound (LRUKeyAccessPolicy.mk hm' l')).
    { intros hm' Hin. split; [split|].
      - intros h. simpl. rewrite Hhd, Hlen. apply Halloc.
      - intros k n Hn; simpl in *.
        destruct (Htracked k n (Hin _ _ Hn)) as [Hh|Hp]; [left; congruence|right].
        by rewrite Hns, prev_write_next.
      - intros k n Hn; simpl in *.
        rewrite Hns, val_write by done. by apply Hsound, Hin. }
    simpl. unfold gets; simpl.
    destruct (LRUKeyAccessPolicy.hashmap self !! val _) as [n'|] eqn:Hk; simpl.
    + intros [= <- <-]. apply Hgoal, Hsub. eauto.
    + intros [= <- <-]. by apply Hgoal.
Qed.

(** A [key_to_remove] that returns has taken the node the tail pointer
    named: it returns that node's key and drops the key from the
    index. *)
Lemma key_to_remove_returns_tail self k self' :
  LRUKeyAccessPolicy.key_to_remove self = (Ret k, self') →
  ∃ t, LL.tail (LRUKeyAccessPolicy.ll self) = Some t ∧
       val (LL.node_at (LRUKeyAccessPolicy.ll self) t) = k ∧
       LRUKeyAccessPolicy.hashmap self' = delete k (LRUKeyAccessPolicy.hashmap self).
Proof.
  unfold LRUKeyAccessPolicy.key_to_remove, bind, LRUKeyAccessPolicy.in_ll, zoom.
  destruct (LL.key_to_remove _) as [o1 l'] eqn:Hll.
  apply ll_key_to_remove_cases in Hll
    as [(Heq & -> & ->)|[(Hne & [e ->] & ->)|(Hne & t & q & Ht & Hq & -> & Hhd & Hlen & Hns)]].
  - destruct (LL.head (LRUKeyAccessPolicy.ll self)) as [h|] eqn:Hh; simpl; [|done].
    unfold gets; simpl.
    destruct (LRUKeyAccessPolicy.hashmap self !! val _) as [n'|] eqn:Hk; simpl; [|done].
    intros [= <- <-]. exists h. by rewrite node_at_mk.
  - done.
  - simpl. unfold gets; simpl.
    destruct (LRUKeyAccessPolicy.hashmap self !! val _) as [n'|] eqn:Hk; simpl; [|done].
    intros [= <- <-]. exists t. by rewrite Hns, val_write.
Qed.

(** The states a new policy reaches, through calls that return and
    calls that raise, are states in which [key_accessed] cannot fail. *)
Lemma policy_after_accessible ops :
  accessible (policy_after ops) ∧ index_sound (policy_after ops).
Proof.
  unfold policy_after.
  induction ops as [|op ops IH] using rev_ind.
  { split; [apply accessible_init|apply index_sound_init]. }
  rewrite foldl_app; simpl. destruct IH as [Hacc Hsound].
  destruct op as [key|]; simpl.
  - destruct (key_accessed_accessible key _ Hacc) as (p' & Hp' & Hacc').
    rewrite Hp'; simpl. split; [done|].
    exact (key_accessed_index_sound _ _ _ _ Hacc Hsound Hp').
  - destruct (LRUKeyAccessPolicy.key_to_remove _) as [o p'] eqn:Hrm; simpl.
    exact (key_to_remove_accessible _ _ _ Hacc Hsound Hrm).
Qed.

End Policy_facts.

(** ** Storage and Cache *)

Section Cache_facts.

Implicit Types (c : Cache.t) (st : HashMapBasedStorage.t) (key : string) (value : pyval).

Lemma storage_put_eq key value st :
  HashMapBasedStorage.put key value st =
  if full st then (Exc StorageFullException, st)
  else (Ret tt, HashMapBasedStorage.set_db (insert key value) st).
Proof.
  unfold HashMapBasedStorage.put, full, bind, gets; simpl.
  by destruct (len_eq _ _).
Qed.

Lemma storage_remove_not_full k st st' :
  HashMapBasedStorage.remove k st = (Ret tt, st') → full st = true → full st' = false.
Proof.
  unfold HashMapBasedStorage.remove, full, bind, gets; simpl.
  destruct (HashMapBasedStorage.db st !! k) as [v|] eqn:Hk; [|done].
  intros [= <-]; simpl. rewrite map_size_delete_Some by eauto.
  assert (size (HashMapBasedStorage.db st) ≠ 0) by (eapply map_size_ne_0_lookup_2; eauto).
  destruct (HashMapBasedStorage.capacity st) as [n|]; simpl; [|done].
  intros Heq%Nat.eqb_eq. apply Nat.eqb_neq. lia.
Qed.

(** A [put] into a storage that is not full does not retry. *)
Lemma put_body_not_full rec key value c :
  full (Cache.storage c) = false →
  Cache.put_body rec key value c =
  let '(o, p) := LRUKeyAccessPolicy.key_accessed key (Cache.key_access_policy c) in
  (o, Cache.mk (HashMapBasedStorage.set_db (insert key value) (Cache.storage c)) p).
Proof.
  intros Hnf. unfold Cache.put_body, try_except, bind, Cache.in_storage, Cache.in_policy, zoom.
  rewrite storage_put_eq, Hnf. simpl.
  destruct (LRUKeyAccessPolicy.key_accessed _ _) as [[[]|e] p] eqn:Hacc; [done|].
  by rewrite (key_accessed_exc _ _ _ _ Hacc).
Qed.

Lemma put_body_ext rec1 rec2 key value c :
  (∀ c', full (Cache.storage c') = false → rec1 key value c' = rec2 key value c') →
  Cache.put_body rec1 key value c = Cache.put_body rec2 key value c.
Proof.
  intros Hrec. destruct (full (Cache.storage c)) eqn:Hfull.
  2: by rewrite !put_body_not_full.
  unfold Cache.put_body, try_except, bind, Cache.in_storage, Cache.in_policy, zoom.
  rewrite storage_put_eq, Hfull. simpl.
  destruct (LRUKeyAccessPolicy.key_to_remove _) as [[k|e] p]; [|done].
  destruct (HashMapBasedStorage.remove _ _) as [[[]|e] st'] eqn:Hrm; [|done].
  rewrite Hrec; [done|]. simpl. by eapply storage_remove_not_full.
Qed.

(** Depth two is enough for [Cache.put]. *)
Lemma put_depth d key value c :
  Cache.put_rec (S (S d)) key value c = Cache.put_rec 2 key value c.
Proof.
  simpl. apply put_body_ext. intros c' Hnf. by rewrite !put_body_not_full.
Qed.

Lemma put_unfold key value c :
  Cache.put key value c =
  Cache.put_body (Cache.put_body (λ _ _, raise RecursionError)) key value c.
Proof.
  unfold Cache.put. change recursion_limit with (S (S 998)). by rewrite put_depth.
Qed.

(** What a [put] that returns has done: the key is stored with the
    value and its node is the head of the recency list. *)
Lemma put_ret key value c c' :
  Cache.put key value c = (Ret tt, c') →
  db_of c' !! key = Some value ∧ most_recent (Cache.key_access_policy c') key.
Proof.
  assert (Hnf : ∀ rec c c', full (Cache.storage c) = false →
            Cache.put_body rec key value c = (Ret tt, c') →
            db_of c' !! key = Some value ∧ most_recent (Cache.key_access_policy c') key).
  { clear. intros rec c c' Hnf. rewrite put_body_not_full by done.
    destruct (LRUKeyAccessPolicy.key_accessed _ _) as [o p] eqn:Hacc.
    intros [= -> <-]. unfold db_of, most_recent; simpl.
    split; [by rewrite lookup_insert_eq|].
    destruct (key_accessed_hashmap _ _ _ _ Hacc) as (node & _ & Hk & Hh). eauto. }
  rewrite put_unfold. destruct (full (Cache.storage c)) eqn:Hfull; [|by apply Hnf].
  unfold Cache.put_body at 1.
  unfold try_except, bind, Cache.in_storage, Cache.in_policy, zoom.
  rewrite storage_put_eq, Hfull. simpl.
  destruct (LRUKeyAccessPolicy.key_to_remove _) as [[k|e] p]; [|done].
  destruct (HashMapBasedStorage.remove _ _) as [[[]|e] st'] eqn:Hrm; [|done].
  destruct (Cache.put_body _ _ _ _) as [[[]|e] c1] eqn:Hput; [|done].
  apply Hnf in Hput as [Hdb _]; [|simpl; by eapply storage_remove_not_full].
  destruct (LRUKeyAccessPolicy.key_accessed _ _) as [o p'] eqn:Hacc.
  intros [= -> <-]. unfold db_of, most_recent in *; simpl. split; [done|].
  destruct (key_accessed_hashmap _ _ _ _ Hacc) as (node & _ & Hk & Hh). eauto.
Qed.

(** [Cache.get] reads the storage and changes nothing. *)
Lemma get_eq key c :
  Cache.get key c =
  (match db_of c !! key with Some v => Ret v | None => Exc (KeyError key) end, c).
Proof.
  unfold Cache.get, HashMapBasedStorage.get, Cache.in_storage, zoom, bind, gets, db_of.
  simpl. destruct c as [[cap db] pol]; simpl. by destruct (db !! key).
Qed.

End Cache_facts.

(** ** Cache levels and the multilevel cache *)

Section Chain_facts.

Variable time : nat → Z.

Implicit Types (ref : list CacheLevel.t) (key : string) (value : pyval) (clk : nat).

Lemma with_cache_same (l : CacheLevel.t) :
  CacheLevel.with_cache l (CacheLevel.cache_provider l) = l.
Proof. by destruct l. Qed.

(** A write that returns has reached every level from [ref] on. *)
Lemma level_put_ret key value ref clk r ref' clk' :
  CacheLevel.put time key value ref clk = (Ret r, (ref', clk')) →
  length ref' = length ref ∧ Forall (holds key value) ref'.
Proof.
  revert clk r ref' clk'. induction ref as [|self next IH]; intros clk r ref' clk'; [done|].
  simpl.
  destruct (Cache.put key value _) as [[[]|e] c] eqn:Hput; [|done].
  apply put_ret in Hput as [Hdb _].
  assert (Hself : holds key value (CacheLevel.with_cache self c)).
  { unfold holds. simpl. by rewrite get_eq, Hdb. }
  destruct next as [|l next].
  - intros [= <- <- <-]. split; [done|]. by constructor.
  - destruct (CacheLevel.put time key value (l :: next) (S clk))
      as [[r'|e] [next' clk'']] eqn:Hnext; [|done].
    intros [= <- <- <-]. apply IH in Hnext as [Hlen Hall].
    split; [simpl; by rewrite Hlen|]. by constructor.
Qed.

(** A read of a key that no level from [ref] on holds raises the
    [KeyError] of the last level and changes no level. *)
Lemma level_get_miss key ref clk :
  ref ≠ [] → Forall (lacks key) ref →
  CacheLevel.get time key ref clk = (Exc (KeyError key), (ref, clk + length ref)).
Proof.
  revert clk. induction ref as [|self next IH]; intros clk Hne Hall; [done|].
  apply Forall_cons in Hall as [Hself Hnext]. simpl.
  rewrite get_eq, Hself, with_cache_same.
  destruct next as [|l next].
  - simpl. by rewrite Nat.add_1_r.
  - rewrite IH by done.
    by replace (S clk + length (l :: next)) with (clk + length (self :: l :: next))
      by (simpl; lia).
Qed.

(** A miss at a level that has a next level: what the level stores and
    returns is the response object of the next level, not the value in
    it. *)
Lemma level_get_backfill key self next clk r next' clk1 c' :
  lacks key self → next ≠ [] →
  CacheLevel.get time key next (S clk) = (Ret r, (next', clk1)) →
  Cache.put key (as_value r) (CacheLevel.cache_provider self) = (Ret tt, c') →
  CacheLevel.get time key (self :: next) clk =
  (Ret (mkResponse (as_value r) (time clk1 - time clk)),
   (CacheLevel.with_cache self c' :: next', S clk1)).
Proof.
  intros Hself Hne Hnext Hput. simpl. rewrite get_eq, Hself.
  destruct next as [|l next]; [done|]. by rewrite Hnext, Hput.
Qed.

End Chain_facts.

(** * The claims *)

(** ** Storage *)

(** C4, counterexample: a storage of capacity 1 that holds ["a"] refuses
    to overwrite ["a"]: the write raises [StorageFullException] although
    the key is present. *)
Lemma C4_overwrite_when_full_fails :
  let st := HashMapBasedStorage.mk (Finite 1) {["a" := VInt 1]} in
  HashMapBasedStorage.db st !! "a" = Some (VInt 1) ∧
  HashMapBasedStorage.put "a" (VInt 2) st = (Exc StorageFullException, st).
Proof. by vm_compute. Qed.

(** C4, as amended: [Storage.put] raises [StorageFullException] exactly
    when the size equals the capacity, whether or not the key is
    present, and then changes nothing; otherwise it returns, having
    inserted or overwritten the key, and it raises no other exception. *)
Theorem C4_put_fails_iff_full key value st :
  (fst (HashMapBasedStorage.put key value st) = Exc StorageFullException ↔
   HashMapBasedStorage.capacity st = Finite (size (HashMapBasedStorage.db st))) ∧
  (HashMapBasedStorage.put key value st = (Exc StorageFullException, st) ∨
   HashMapBasedStorage.put key value st =
     (Ret tt, HashMapBasedStorage.mk (HashMapBasedStorage.capacity st)
                (<[key := value]> (HashMapBasedStorage.db st)))).
Proof.
  rewrite storage_put_eq. destruct st as [[n|] db]; unfold full, len_eq;
    cbn [HashMapBasedStorage.capacity HashMapBasedStorage.db fst].
  - destruct (Nat.eqb_spec (size db) n) as [Heq|Hne]; cbn [fst].
    + split; [by rewrite Heq|by left].
    + split; [|by right]. split; [done|]. intros [= Heq]. by destruct Hne.
  - split; [done|by right].
Qed.

(** ** The multilevel cache *)

(** C9: with no front level, [get] and [put] fail on the attribute
    access on [None], an [AttributeError] that is none of the error
    kinds of the specification, and nothing is changed. *)
Theorem C9_no_front_level time key value m clk :
  MultilevelCache.front_cache_level m = [] →
  ∃ e1 e2,
    MultilevelCache.get time key m clk = (Exc e1, (m, clk)) ∧
    MultilevelCache.put time key value m clk = (Exc e2, (m, clk)) ∧
    e1 = AttributeError "get" ∧ e2 = AttributeError "put" ∧
    error_kind e1 = None ∧ error_kind e2 = None.
Proof.
  destruct m as [front gq pq]; simpl. intros ->.
  by exists (AttributeError "get"), (AttributeError "put").
Qed.

(** A multilevel cache as its constructor leaves it. *)
Lemma C9_no_front_level_witness :
  let m := MultilevelCache.init [] (Some 5) in
  MultilevelCache.front_cache_level m = [] ∧
  ∃ e1 e2,
    MultilevelCache.get tick "a" m 0 = (Exc e1, (m, 0)) ∧
    MultilevelCache.put tick "a" (VInt 97) m 0 = (Exc e2, (m, 0)) ∧
    e1 = AttributeError "get" ∧ e2 = AttributeError "put" ∧
    error_kind e1 = None ∧ error_kind e2 = None.
Proof.
  split; [reflexivity|].
  apply (C9_no_front_level tick "a" (VInt 97) (MultilevelCache.init [] (Some 5)) 0).
  reflexivity.
Defined.

(** C10: when the front level's [get] raises, [MultilevelCache.get]
    raises the same exception and both history queues are as they
    were: no response is recorded for a failed read. *)
Theorem C10_failed_get_not_recorded time key m clk e front' clk' :
  CacheLevel.get time key (MultilevelCache.front_cache_level m) clk
    = (Exc e, (front', clk')) →
  ∃ m', MultilevelCache.get time key m clk = (Exc e, (m', clk')) ∧
        MultilevelCache.front_cache_level m' = front' ∧
        MultilevelCache.get_queue m' = MultilevelCache.get_queue m ∧
        MultilevelCache.put_queue m' = MultilevelCache.put_queue m.
Proof.
  intros Hfront. unfold MultilevelCache.get. rewrite Hfront. by eexists.
Qed.

(** A terminal miss on the three-level chain. *)
Lemma C10_failed_get_not_recorded_witness :
  let m := MultilevelCache.init three_levels (Some 5) in
  CacheLevel.get tick "nope" (MultilevelCache.front_cache_level m) 0
    = (Exc (KeyError "nope"), (three_levels, 3)) ∧
  ∃ m', MultilevelCache.get tick "nope" m 0 = (Exc (KeyError "nope"), (m', 3)) ∧
        MultilevelCache.front_cache_level m' = three_levels ∧
        MultilevelCache.get_queue m' = MultilevelCache.get_queue m ∧
        MultilevelCache.put_queue m' = MultilevelCache.put_queue m.
Proof.
  split; [reflexivity|].
  apply (C10_failed_get_not_recorded tick "nope"
           (MultilevelCache.init three_levels (Some 5)) 0 (KeyError "nope") three_levels 3).
  reflexivity.
Defined.

(** The same holds of a write: when the front level's [put] raises, no
    response is recorded. *)
Lemma failed_put_not_recorded time key value m clk e front' clk' :
  CacheLevel.put time key value (MultilevelCache.front_cache_level m) clk
    = (Exc e, (front', clk')) →
  ∃ m', MultilevelCache.put time key value m clk = (Exc e, (m', clk')) ∧
        MultilevelCache.front_cache_level m' = front' ∧
        MultilevelCache.get_queue m' = MultilevelCache.get_queue m ∧
        MultilevelCache.put_queue m' = MultilevelCache.put_queue m.
Proof.
  intros Hfront. unfold MultilevelCache.put. rewrite Hfront. by eexists.
Qed.

(** A read that returns records exactly its response, at the front of
    the read queue. *)
Lemma get_recorded time key m clk v m' clk' :
  MultilevelCache.get time key m clk = (Ret v, (m', clk')) →
  ∃ r, value r = v ∧
       MultilevelCache.get_queue m' = appendleft r (MultilevelCache.get_queue m) ∧
       MultilevelCache.put_queue m' = MultilevelCache.put_queue m.
Proof.
  unfold MultilevelCache.get.
  destruct (CacheLevel.get _ _ _ _) as [[r|e] [front clk'']]; [|done].
  intros [= <- <- _]. by exists r.
Qed.

(** C7: when the chain has a front level and no level holds the key,
    [get] raises the [KeyError] for that key, the one the last level
    raised, and no level, queue or response is changed; one clock
    reading was made per level. *)
Theorem C7_terminal_miss time key m clk :
  MultilevelCache.front_cache_level m ≠ [] →
  Forall (lacks key) (MultilevelCache.front_cache_level m) →
  MultilevelCache.get time key m clk =
    (Exc (KeyError key), (m, clk + length (MultilevelCache.front_cache_level m))) ∧
  CacheLevel.get time key (MultilevelCache.front_cache_level m) clk =
    (Exc (KeyError key),
     (MultilevelCache.front_cache_level m,
      clk + length (MultilevelCache.front_cache_level m))) ∧
  error_kind (KeyError key) = Some "NotFound".
Proof.
  intros Hne Hall. unfold MultilevelCache.get.
  rewrite level_get_miss by done. by destruct m.
Qed.

(** Three empty levels hold no key. *)
Lemma C7_terminal_miss_witness :
  let m := MultilevelCache.init three_levels (Some 5) in
  MultilevelCache.get tick "nope" m 0 = (Exc (KeyError "nope"), (m, 3)) ∧
  CacheLevel.get tick "nope" three_levels 0 = (Exc (KeyError "nope"), (three_levels, 3)) ∧
  error_kind (KeyError "nope") = Some "NotFound".
Proof.
  apply (C7_terminal_miss tick "nope" (MultilevelCache.init three_levels (Some 5)) 0).
  - discriminate.
  - repeat constructor.
Defined.

(** C6: after a [put] that returns, every level of the chain, asked on
    its own, returns the written value for the key; the chain has the
    levels it had. *)
Theorem C6_write_through time key value m clk m' clk' :
  MultilevelCache.put time key value m clk = (Ret tt, (m', clk')) →
  length (MultilevelCache.front_cache_level m') =
    length (MultilevelCache.front_cache_level m) ∧
  Forall (holds key value) (MultilevelCache.front_cache_level m').
Proof.
  unfold MultilevelCache.put.
  destruct (CacheLevel.put _ _ _ _ _) as [[r|e] [front clk'']] eqn:Hput; [|done].
  intros [= <- <-]. simpl. by eapply level_put_ret.
Qed.

(** A write into the three-level chain. *)
Lemma C6_write_through_witness :
  let m := MultilevelCache.init three_levels (Some 5) in
  let r := MultilevelCache.put tick "y" (VInt 121) m 0 in
  fst r = Ret tt ∧
  length (MultilevelCache.front_cache_level (fst (snd r))) = 3 ∧
  Forall (holds "y" (VInt 121)) (MultilevelCache.front_cache_level (fst (snd r))).
Proof.
  split; [reflexivity|].
  apply (C6_write_through tick "y" (VInt 121)
           (MultilevelCache.init three_levels (Some 5)) 0 _ 6).
  reflexivity.
Defined.

(** C1, at the failing input: the front level is empty and the second
    level holds ["x"] with the integer 120.  [get] succeeds, but what
    it returns is the second level's [ReadResponse] object, not 120,
    and the front level then holds ["x"] with that object; the second
    level still holds 120. *)
Theorem C1_read_through_returns_response (time : nat → Z) :
  let m := MultilevelCache.init two_levels (Some 5) in
  let response := VReadResponse (VInt 120) (Z.sub (time 2) (time 1)) in
  Forall2 (λ l o, HashMapBasedStorage.db (Cache.storage (CacheLevel.cache_provider l)) !! "x" = o)
          (MultilevelCache.front_cache_level m) [None; Some (VInt 120)] ∧
  ∃ m', MultilevelCache.get time "x" m 0 = (Ret response, (m', 4)) ∧
        Forall2 (holds "x") [response; VInt 120] (MultilevelCache.front_cache_level m').
Proof.
  split; [by repeat constructor|].
  eexists. split; [by vm_compute|].
  by repeat constructor.
Qed.

(** ** The recency list *)

(** C3, at the failing input: the invariant holds of the new policy and
    is broken by the first [key_accessed]: the only node is its own
    predecessor and its own successor, so the head has a predecessor,
    the tail has a successor, and the list is a cycle. *)
Theorem C3_first_access_breaks_invariant :
  let r := LRUKeyAccessPolicy.key_accessed "a" LRUKeyAccessPolicy.init in
  let l := LRUKeyAccessPolicy.ll (snd r) in
  recency_invariant LRUKeyAccessPolicy.init = true ∧
  fst r = Ret tt ∧
  LL.head l = Some 0 ∧ LL.tail l = Some 0 ∧
  prev (LL.node_at l 0) = Some 0 ∧ next (LL.node_at l 0) = Some 0 ∧
  walk l (length (LL.nodes l)) (LL.head l) = None ∧
  recency_invariant (snd r) = false.
Proof. by vm_compute. Qed.

(** C8, at the failing input: the new policy, which tracks no key,
    raises the [AttributeError] that stands for PolicyEmpty; but after
    the accesses a, b, a the policy tracks both keys, ["b"] is the
    least recently used, and [key_to_remove] returns ["a"]; it leaves
    the list empty with ["b"] still tracked, so that the next
    [key_to_remove] raises as if no key were tracked. *)
Theorem C8_key_to_remove_returns_most_recent :
  let p := policy_after [Accessed "a"; Accessed "b"; Accessed "a"] in
  let r := LRUKeyAccessPolicy.key_to_remove p in
  fst (LRUKeyAccessPolicy.key_to_remove LRUKeyAccessPolicy.init)
    = Exc (AttributeError "val") ∧
  LRUKeyAccessPolicy.hashmap p !! "a" = Some 0 ∧
  LRUKeyAccessPolicy.hashmap p !! "b" = Some 1 ∧
  fst r = Ret "a" ∧
  LRUKeyAccessPolicy.hashmap (snd r) !! "b" = Some 1 ∧
  LL.head (LRUKeyAccessPolicy.ll (snd r)) = None ∧
  fst (LRUKeyAccessPolicy.key_to_remove (snd r)) = Exc (AttributeError "val").
Proof. by vm_compute. Qed.

(** On a policy whose list is empty, as the new policy's is,
    [key_to_remove] raises the [AttributeError] of [None.val] and
    changes nothing. *)
Lemma key_to_remove_empty p :
  LL.head (LRUKeyAccessPolicy.ll p) = None →
  LL.tail (LRUKeyAccessPolicy.ll p) = None →
  LRUKeyAccessPolicy.key_to_remove p = (Exc (AttributeError "val"), p) ∧
  error_kind (AttributeError "val") = Some "PolicyEmpty".
Proof.
  destruct p as [hm [ns h tl]]; simpl. by intros -> ->.
Qed.

(** ** The recency order *)

(** C2, counterexample.  A read does not refresh a key: in a cache of
    capacity two, after writing a and b and reading a, writing c evicts
    a, and b, accessed before a was read, stays.  And the policy's
    victim need not be the least recently used key: after the accesses
    a, b, a, [key_to_remove] returns a while b is still tracked. *)
Lemma C2_read_does_not_refresh_and_victim_not_lru :
  (∃ c, run_cache [Put "a" (VInt 1); Put "b" (VInt 2); Get "a"; Put "c" (VInt 3)]
          (new_cache (Finite 2)) = (Ret tt, c) ∧
        HashMapBasedStorage.db (Cache.storage c) !! "a" = None ∧
        HashMapBasedStorage.db (Cache.storage c) !! "b" = Some (VInt 2)) ∧
  ¬ lru_respected ["a"; "b"; "a"].
Proof.
  split.
  - exists (snd (run_cache [Put "a" (VInt 1); Put "b" (VInt 2); Get "a"; Put "c" (VInt 3)]
                   (new_cache (Finite 2)))).
    by vm_compute.
  - intros Hlru.
    specialize (Hlru "a" (policy_after [Accessed "a"; Accessed "b"; Accessed "a"; ToRemove])
                  eq_refl "b").
    assert (H : last_pos "a" ["a"; "b"; "a"] < last_pos "b" ["a"; "b"; "a"]).
    { apply Hlru. exists 1. by vm_compute. }
    vm_compute in H. lia.
Qed.

(** C2, as amended: after every sequence of [key_accessed] and
    [key_to_remove] calls on a new policy, [key_accessed] returns and
    leaves the key's node at the head of the recency list; a
    [Cache.put] that returns leaves the key's node at the head; a
    [Cache.get] changes nothing, the recency list included. *)
Theorem C2_access_moves_key_to_head ops key value c c' :
  Cache.put key value c = (Ret tt, c') →
  (∃ p', LRUKeyAccessPolicy.key_accessed key (policy_after ops) = (Ret tt, p') ∧
         most_recent p' key) ∧
  most_recent (Cache.key_access_policy c') key ∧
  ∀ k, snd (Cache.get k c') = c'.
Proof.
  intros Hput. split_and!.
  - destruct (policy_after_accessible ops) as [Hacc _].
    destruct (key_accessed_accessible key _ Hacc) as (p' & Hp' & _).
    exists p'. split; [done|].
    destruct (key_accessed_hashmap _ _ _ _ Hp') as (node & _ & Hk & Hh).
    exists node. eauto.
  - by apply put_ret in Hput as [_ Hhead].
  - intros k. by rewrite get_eq.
Qed.

(** An access after the accesses a, b and a removal, and the first
    write into a new cache. *)
Lemma C2_access_moves_key_to_head_witness :
  let ops := [Accessed "a"; Accessed "b"; ToRemove] in
  let c' := snd (Cache.put "a" (VInt 1) (new_cache (Finite 2))) in
  (∃ p', LRUKeyAccessPolicy.key_accessed "a" (policy_after ops) = (Ret tt, p') ∧
         most_recent p' "a") ∧
  most_recent (Cache.key_access_policy c') "a" ∧
  ∀ k, snd (Cache.get k c') = c'.
Proof.
  apply (C2_access_moves_key_to_head [Accessed "a"; Accessed "b"; ToRemove]
           "a" (VInt 1) (new_cache (Finite 2)) _).
  reflexivity.
Defined.

(** ** No loss below capacity *)

Section No_loss.

Implicit Types (c : Cache.t) (ops : list (string * pyval)) (key : string).

(** A [put] into a storage that is not full, on a policy in which
  [key_accessed] cannot fail, returns and only inserts the key. *)
Lemma put_not_full key value c :
full (Cache.storage c) = false →
accessible (Cache.key_access_policy c) →
∃ c', Cache.put key value c = (Ret tt, c') ∧
      db_of c' = <[key := value]> (db_of c) ∧
      HashMapBasedStorage.capacity (Cache.storage c') =
        HashMapBasedStorage.capacity (Cache.storage c) ∧
      accessible (Cache.key_access_policy c').
Proof.
intros Hnf Hacc. rewrite put_unfold, put_body_not_full by done.
destruct (key_accessed_accessible key _ Hacc) as (p' & -> & Hacc').
by eexists.
Qed.

Lemma run_puts_room ops c :
accessible (Cache.key_access_policy c) →
ops = [] ∨ room c ops →
∃ c', run_puts ops c = (Ret tt, c') ∧ db_of c' = written (db_of c) ops.
Proof.
revert c. induction ops as [|[k v] ops IH]; intros c Hacc Hroom.
{ by exists c. }
destruct Hroom as [|Hroom]; [done|].
assert (Hnf : full (Cache.storage c) = false).
{ unfold full, room, db_of in *.
  destruct (HashMapBasedStorage.capacity _) as [n|]; [|done].
  simpl. apply Nat.eqb_neq.
  pose proof (subseteq_size (dom (HashMapBasedStorage.db (Cache.storage c)))
                (dom (HashMapBasedStorage.db (Cache.storage c))
                   ∪ keys_of (removelast ((k, v) :: ops)))) as Hle.
  rewrite size_dom in Hle. specialize (Hle ltac:(set_solver)). lia. }
destruct (put_not_full k v c Hnf Hacc) as (c1 & Hput & Hdb & Hcap & Hacc1).
destruct (IH c1 Hacc1) as (c' & Hrun & Hdb').
{ destruct ops as [|op ops]; [by left|right].
  unfold room in *. rewrite Hcap.
  destruct (HashMapBasedStorage.capacity _) as [n|]; [|done].
  rewrite Hdb, dom_insert_L.
  replace ({[k]} ∪ dom (db_of c) ∪ keys_of (removelast (op :: ops)))
    with (dom (db_of c) ∪ keys_of (removelast ((k, v) :: op :: ops))); [done|].
  change (removelast ((k, v) :: op :: ops)) with ((k, v) :: removelast (op :: ops)).
  unfold keys_of. rewrite fmap_cons, list_to_set_cons. simpl. set_solver. }
exists c'. split.
- simpl. unfold bind. by rewrite Hput.
- rewrite Hdb'. by rewrite Hdb.
Qed.

Lemma written_lookup key ops (m : gmap string pyval) :
written m ops !! key =
match last_written key ops with
| Some v => Some v
| None => m !! key
end.
Proof.
revert m. induction ops as [|[k v] ops IH]; intros m; [done|].
simpl. rewrite IH. destruct (last_written key ops); [done|].
rewrite lookup_insert. by case_decide.
Qed.

Lemma last_written_keys key ops :
key ∈ keys_of ops → is_Some (last_written key ops).
Proof.
unfold keys_of. induction ops as [|[k v] ops IH]; simpl.
- set_solver.
- rewrite elem_of_union, elem_of_singleton. intros [->|Hin].
  + destruct (last_written k ops); [by eexists|]. rewrite decide_True by done. by eexists.
  + destruct (IH Hin) as [v' ->]. by eexists.
Qed.

End No_loss.

(** C5, counterexample: in a cache of capacity two the writes a, b, b
    use two distinct keys, all three return, and ["a"] is lost. *)
Lemma C5_overwrite_at_capacity_loses_a_key :
  let ops := [("a", VInt 1); ("b", VInt 2); ("b", VInt 3)] in
  size (keys_of ops) ≤ 2 ∧
  ∃ c, run_puts ops (new_cache (Finite 2)) = (Ret tt, c) ∧
       Cache.get "a" c = (Exc (KeyError "a"), c).
Proof.
  split; [vm_compute; lia|].
  exists (snd (run_puts [("a", VInt 1); ("b", VInt 2); ("b", VInt 3)] (new_cache (Finite 2)))).
  by vm_compute.
Qed.

(** C5, as amended: on a new cache, when the keys written before the
    final [put] are fewer than the capacity, so that no [put] meets a
    full storage, every [put] returns and every key written is then
    returned by [Cache.get] with the value last written for it. *)
Theorem C5_no_loss_below_capacity capacity ops :
  below_capacity capacity ops →
  ∃ c, run_puts ops (new_cache capacity) = (Ret tt, c) ∧
       ∀ key, key ∈ keys_of ops →
         ∃ v, last_written key ops = Some v ∧ Cache.get key c = (Ret v, c).
Proof.
  intros Hbelow.
  destruct (run_puts_room ops (new_cache capacity)) as (c & Hrun & Hdb).
  { apply accessible_init. }
  { right. unfold room, below_capacity in *. simpl.
    destruct capacity as [n|]; [|done].
    replace (dom (db_of (new_cache (Finite n))) ∪ keys_of (removelast ops))
      with (keys_of (removelast ops)); [done|].
    unfold db_of; simpl. rewrite dom_empty_L. set_solver. }
  exists c. split; [done|]. intros key Hkey.
  destruct (last_written_keys _ _ Hkey) as [v Hv]. exists v. split; [done|].
  by rewrite get_eq, Hdb, written_lookup, Hv.
Qed.

(** Four writes of three keys into a cache of capacity three: the last
    write fills the storage. *)
Lemma C5_no_loss_below_capacity_witness :
  let ops := [("a", VInt 1); ("b", VInt 2); ("a", VInt 3); ("c", VInt 4)] in
  below_capacity (Finite 3) ops ∧
  ∃ c, run_puts ops (new_cache (Finite 3)) = (Ret tt, c) ∧
       ∀ key, key ∈ keys_of ops →
         ∃ v, last_written key ops = Some v ∧ Cache.get key c = (Ret v, c).
Proof.
  assert (H : below_capacity (Finite 3)
                [("a", VInt 1); ("b", VInt 2); ("a", VInt 3); ("c", VInt 4)]).
  { vm_compute. lia. }
  split; [exact H|]. exact (C5_no_loss_below_capacity _ _ H).
Defined.

(** The defect behind C3 and C8 reaches the cache: in a new cache of
    capacity four the writes e, c, e, d, c, b, a return, and then the
    tail pointer names the node of the evicted ["e"] for good, so that
    the next write into the full storage raises [KeyError]. *)
Lemma put_raises_KeyError :
  let keys := ["e"; "c"; "e"; "d"; "c"; "b"; "a"] in
  let r := run_puts ((λ k, (k, VNone)) <$> keys) (new_cache (Finite 4)) in
  fst r = Ret tt ∧
  fst (Cache.put "a" VNone (snd r)) = Exc (KeyError "e") ∧
  fst (Cache.put "f" VNone (snd r)) = Exc (KeyError "e").
Proof. by vm_compute. Qed.

(** * Further properties *)

(** ** Storage *)

(** X1: what a [put] that returns has stored is what [get] returns for
    the key; every other key reads as before, and the capacity is the
    same. *)
Theorem storage_put_then_get key value st st' :
  HashMapBasedStorage.put key value st = (Ret tt, st') →
  HashMapBasedStorage.get key st' = (Ret value, st') ∧
  (∀ k, k ≠ key →
        fst (HashMapBasedStorage.get k st') = fst (HashMapBasedStorage.get k st)) ∧
  HashMapBasedStorage.capacity st' = HashMapBasedStorage.capacity st.
Proof.
  rewrite storage_put_eq. destruct (full st); [done|]. intros [= <-].
  unfold HashMapBasedStorage.get, bind, gets; simpl. rewrite lookup_insert_eq.
  split_and!; [done| |done].
  intros k Hk. rewrite lookup_insert_ne by done.
  by destruct (HashMapBasedStorage.db st !! k).
Qed.

(** A write into a storage of capacity two that holds one key. *)
Lemma storage_put_then_get_witness :
  let st := HashMapBasedStorage.mk (Finite 2) {["a" := VInt 1]} in
  let st' := snd (HashMapBasedStorage.put "b" (VInt 2) st) in
  HashMapBasedStorage.get "b" st' = (Ret (VInt 2), st') ∧
  (∀ k, k ≠ "b" →
        fst (HashMapBasedStorage.get k st') = fst (HashMapBasedStorage.get k st)) ∧
  HashMapBasedStorage.capacity st' = HashMapBasedStorage.capacity st.
Proof.
  apply (storage_put_then_get "b" (VInt 2)
           (HashMapBasedStorage.mk (Finite 2) {["a" := VInt 1]})).
  reflexivity.
Defined.

(** X2: [remove] of an absent key raises [KeyError] for that key and
    changes nothing; [remove] of a present key returns, after which
    [get] of the key raises [KeyError], every other key reads as
    before, and the storage holds one entry fewer. *)
Theorem storage_remove_then_get key st :
  (HashMapBasedStorage.db st !! key = None ∧
   HashMapBasedStorage.remove key st = (Exc (KeyError key), st)) ∨
  (is_Some (HashMapBasedStorage.db st !! key) ∧
   ∃ st', HashMapBasedStorage.remove key st = (Ret tt, st') ∧
          HashMapBasedStorage.get key st' = (Exc (KeyError key), st') ∧
          (∀ k, k ≠ key →
                fst (HashMapBasedStorage.get k st') = fst (HashMapBasedStorage.get k st)) ∧
          S (size (HashMapBasedStorage.db st')) = size (HashMapBasedStorage.db st) ∧
          HashMapBasedStorage.capacity st' = HashMapBasedStorage.capacity st).
Proof.
  unfold HashMapBasedStorage.remove, HashMapBasedStorage.get, bind, gets; simpl.
  destruct (HashMapBasedStorage.db st !! key) as [v|] eqn:Hk; [right|by left].
  split; [done|]. eexists. split; [done|]. simpl. rewrite lookup_delete_eq.
  split_and!; [done| | |done].
  - intros k Hne. rewrite lookup_delete_ne by done.
    by destruct (HashMapBasedStorage.db st !! k).
  - rewrite map_size_delete_Some by eauto.
    assert (size (HashMapBasedStorage.db st) ≠ 0)
      by (eapply map_size_ne_0_lookup_2; eauto).
    lia.
Qed.




(** ** The policy *)

(** X4: after every sequence of [key_accessed] and [key_to_remove]
    calls on a new policy, a tracked key names an allocated node that
    carries that key, so that no two keys name the same node. *)
Theorem tracked_node_carries_key ops k n :
  LRUKeyAccessPolicy.hashmap (policy_after ops) !! k = Some n →
  n < length (LL.nodes (LRUKeyAccessPolicy.ll (policy_after ops))) ∧
  val (LL.node_at (LRUKeyAccessPolicy.ll (policy_after ops)) n) = k ∧
  ∀ k', LRUKeyAccessPolicy.hashmap (policy_after ops) !! k' = Some n → k' = k.
Proof.
  intros Hk. destruct (policy_after_accessible ops) as [[Halloc Hlinked] Hsound].
  split_and!.
  - eapply linked_allocated; eauto.
  - by apply Hsound.
  - intros k' Hk'. apply Hsound in Hk, Hk'. congruence.
Qed.

(** The key b after the accesses a, b and a removal. *)
Lemma tracked_node_carries_key_witness :
  let p := policy_after [Accessed "a"; Accessed "b"; ToRemove] in
  LRUKeyAccessPolicy.hashmap p !! "b" = Some 1 ∧
  1 < length (LL.nodes (LRUKeyAccessPolicy.ll p)) ∧
  val (LL.node_at (LRUKeyAccessPolicy.ll p) 1) = "b" ∧
  ∀ k', LRUKeyAccessPolicy.hashmap p !! k' = Some 1 → k' = "b".
Proof.
  split; [reflexivity|].
  apply (tracked_node_carries_key [Accessed "a"; Accessed "b"; ToRemove] "b" 1).
  reflexivity.
Defined.

(** ** Cache *)

Section Cache_errors.

Implicit Types (c : Cache.t) (key : string) (value : pyval).

Lemma key_to_remove_exc (p p' : LRUKeyAccessPolicy.t) e :
  LRUKeyAccessPolicy.key_to_remove p = (Exc e, p') → attribute_or_key_error e.
Proof.
  unfold attribute_or_key_error.
  destruct p as [hm [ns h tl]].
  unfold LRUKeyAccessPolicy.key_to_remove, LL.key_to_remove, LRUKeyAccessPolicy.in_ll,
    zoom, bind, gets; simpl.
  destruct (decide (h = tl)) as [->|Hne]; simpl.
  - destruct tl as [t|]; simpl; [|intros [= <- _]; eauto].
    unfold gets; simpl.
    destruct (hm !! _); simpl; intros [= <- _]; eauto.
  - destruct tl as [t|]; simpl; [|intros [= <- _]; eauto].
    destruct (prev _) as [q|]; simpl; [|intros [= <- _]; eauto].
    unfold gets; simpl.
    destruct (hm !! _); simpl; intros [= <- _]; eauto.
Qed.

Lemma storage_remove_exc k (st st' : HashMapBasedStorage.t) e :
  HashMapBasedStorage.remove k st = (Exc e, st') → e = KeyError k ∧ st' = st.
Proof.
  unfold HashMapBasedStorage.remove, bind, gets; simpl.
  destruct (HashMapBasedStorage.db st !! k); simpl; [done|]. by intros [= <- <-].
Qed.

Lemma put_body_exc rec key value c e c' :
  (∀ c e c', full (Cache.storage c) = false → rec key value c = (Exc e, c') →
             attribute_or_key_error e) →
  Cache.put_body rec key value c = (Exc e, c') →
  attribute_or_key_error e.
Proof.
  intros Hrec.
  unfold Cache.put_body, try_except, bind, Cache.in_storage, Cache.in_policy, zoom.
  rewrite storage_put_eq. destruct (full (Cache.storage c)) eqn:Hfull; simpl.
  - destruct (LRUKeyAccessPolicy.key_to_remove _) as [[k|e1] p] eqn:Hrm.
    2: { intros [= <- _]. by eapply key_to_remove_exc. }
    destruct (HashMapBasedStorage.remove _ _) as [[[]|e2] st'] eqn:Hst.
    2: { intros [= <- _]. apply storage_remove_exc in Hst as [-> _].
         right. eauto. }
    destruct (rec key value _) as [[[]|e3] c1] eqn:Hr.
    2: { intros [= <- _]. eapply Hrec; [|exact Hr].
         simpl. by eapply storage_remove_not_full. }
    destruct (LRUKeyAccessPolicy.key_accessed _ _) as [[[]|e4] p4] eqn:Hacc; [done|].
    intros [= <- _]. apply key_accessed_exc in Hacc as ->. left. eauto.
  - destruct (LRUKeyAccessPolicy.key_accessed _ _) as [[[]|e4] p4] eqn:Hacc; [done|].
    rewrite (key_accessed_exc _ _ _ _ Hacc). simpl.
    intros [= <- _]. left. eauto.
Qed.



End Cache_errors.

(** X5: [Cache.put] never lets a [StorageFullException] out, and it
    never runs out of stack: when it raises, it raises an
    [AttributeError] or a [KeyError]. *)
Theorem put_contains_storage_full key value c e c' :
  Cache.put key value c = (Exc e, c') →
  e ≠ StorageFullException ∧ e ≠ RecursionError ∧ attribute_or_key_error e.
Proof.
  rewrite put_unfold. intros Hput.
  assert (Hk : attribute_or_key_error e).
  { eapply put_body_exc; [|exact Hput].
    intros c1 e1 c1' Hnf. rewrite put_body_not_full by done.
    destruct (LRUKeyAccessPolicy.key_accessed _ _) as [[[]|e4] p4] eqn:Hacc; [done|].
    intros [= <- _]. apply key_accessed_exc in Hacc as ->. left. eauto. }
  split_and!; [| |done]; intros ->; by destruct Hk as [[? ?]|[? ?]].
Qed.

(** The write that fails in [put_raises_KeyError]. *)
Lemma put_contains_storage_full_witness :
  let c := snd (run_puts ((λ k, (k, VNone)) <$> ["e"; "c"; "e"; "d"; "c"; "b"; "a"])
                  (new_cache (Finite 4))) in
  let r := Cache.put "f" VNone c in
  r = (Exc (KeyError "e"), snd r) ∧
  KeyError "e" ≠ StorageFullException ∧ KeyError "e" ≠ RecursionError ∧
  attribute_or_key_error (KeyError "e").
Proof.
  split; [reflexivity|].
  eapply (put_contains_storage_full "f" VNone
            (snd (run_puts ((λ k, (k, VNone)) <$> ["e"; "c"; "e"; "d"; "c"; "b"; "a"])
                    (new_cache (Finite 4))))
            (KeyError "e")).
  reflexivity.
Defined.

(** X6: a [put] into a cache whose storage is full while the recency
    list is empty, as in every new cache of capacity zero, raises the
    [AttributeError] of the empty policy and changes nothing. *)
Theorem put_full_with_empty_list key value c :
  full (Cache.storage c) = true →
  LL.head (LRUKeyAccessPolicy.ll (Cache.key_access_policy c)) = None →
  LL.tail (LRUKeyAccessPolicy.ll (Cache.key_access_policy c)) = None →
  Cache.put key value c = (Exc (AttributeError "val"), c).
Proof.
  intros Hfull Hh Ht. rewrite put_unfold.
  unfold Cache.put_body at 1.
  unfold try_except, bind, Cache.in_storage, Cache.in_policy, zoom.
  rewrite storage_put_eq, Hfull. simpl.
  rewrite (proj1 (key_to_remove_empty _ Hh Ht)). by destruct c.
Qed.

(** A new cache of capacity zero. *)
Lemma put_full_with_empty_list_witness :
  Cache.put "a" (VInt 1) (new_cache (Finite 0))
  = (Exc (AttributeError "val"), new_cache (Finite 0)).
Proof.
  apply (put_full_with_empty_list "a" (VInt 1) (new_cache (Finite 0))); reflexivity.
Defined.

(** ** The chain of levels *)

Section Chain_more.

Variable time : nat → Z.

Implicit Types (ref : list CacheLevel.t) (key : string) (value : pyval) (clk : nat).



(** A read that returns leaves the key in the cache of the first
    level, with the value of the response. *)
Lemma level_get_ret_holds key ref clk r ref' clk' :
  CacheLevel.get time key ref clk = (Ret r, (ref', clk')) →
  ∃ l rest, ref' = l :: rest ∧ holds key (value r) l.
Proof.
  destruct ref as [|self next]; [done|]. simpl. rewrite get_eq.
  destruct (db_of (CacheLevel.cache_provider self) !! key) as [v|] eqn:Hv; simpl.
  { intros [= <- <- _]. eexists _, _. split; [done|].
    unfold holds. simpl. by rewrite get_eq, Hv. }
  destruct next as [|l next]; [done|].
  destruct (CacheLevel.get time key (l :: next) (S clk)) as [[r'|e] [next' clk'']];
    [|done].
  destruct (Cache.put key (as_value r') _) as [[[]|e] c'] eqn:Hput; [|done].
  intros [= <- <- _]. eexists _, _. split; [done|].
  apply put_ret in Hput as [Hdb _]. unfold holds. simpl. by rewrite get_eq, Hdb.
Qed.

(** A read of a key that the first level holds. *)
Lemma level_get_hit key value l rest clk :
  holds key value l →
  CacheLevel.get time key (l :: rest) clk =
  (Ret (mkResponse value (time (S clk) - time clk)), (l :: rest, S (S clk))).
Proof.
  unfold holds. intros Hl. simpl. by rewrite Hl, with_cache_same.
Qed.

(** A write that raises has reached the levels before the one whose
    cache raised, and no level after it. *)
Lemma level_put_exc key value ref clk e ref' clk' :
  ref ≠ [] →
  CacheLevel.put time key value ref clk = (Exc e, (ref', clk')) →
  ∃ (before : list CacheLevel.t) l after (before' : list CacheLevel.t) c',
    ref = (before ++ l :: after)%list ∧
    ref' = (before' ++ CacheLevel.with_cache l c' :: after)%list ∧
    length before' = length before ∧
    Forall (holds key value) before' ∧
    Cache.put key value (CacheLevel.cache_provider l) = (Exc e, c').
Proof.
  revert clk ref' clk'. induction ref as [|self next IH]; intros clk ref' clk' Hne; [done|].
  simpl. destruct (Cache.put key value _) as [[[]|e1] c1] eqn:Hput.
  2: { intros [= <- <- _]. by exists [], self, next, [], c1. }
  destruct next as [|l next]; [done|].
  destruct (CacheLevel.put time key value (l :: next) (S clk))
    as [[r|e2] [next' clk'']] eqn:Hnext; [done|].
  intros [= <- <- _].
  destruct (IH _ _ _ ltac:(done) Hnext)
    as (before & l0 & after & before' & c' & Href & Href' & Hlen & Hall & Hexc).
  exists (self :: before), l0, after, (CacheLevel.with_cache self c1 :: before'), c'.
  split_and!.
  - by rewrite Href.
  - by rewrite Href'.
  - simpl. by rewrite Hlen.
  - constructor; [|done]. apply put_ret in Hput as [Hdb _].
    unfold holds. simpl. by rewrite get_eq, Hdb.
  - done.
Qed.

End Chain_more.



(** X8: neither [get] nor [put] changes the [maxlen] of a history
    queue, and after either, whatever its outcome, both queues hold no
    more items than their [maxlen], provided they did before. *)
Theorem history_stays_bounded time key value m clk :
  bounded (MultilevelCache.get_queue m) → bounded (MultilevelCache.put_queue m) →
  let m1 := fst (snd (MultilevelCache.get time key m clk)) in
  let m2 := fst (snd (MultilevelCache.put time key value m clk)) in
  bounded (MultilevelCache.get_queue m1) ∧ bounded (MultilevelCache.put_queue m1) ∧
  bounded (MultilevelCache.get_queue m2) ∧ bounded (MultilevelCache.put_queue m2) ∧
  maxlen (MultilevelCache.get_queue m1) = maxlen (MultilevelCache.get_queue m) ∧
  maxlen (MultilevelCache.put_queue m1) = maxlen (MultilevelCache.put_queue m) ∧
  maxlen (MultilevelCache.get_queue m2) = maxlen (MultilevelCache.get_queue m) ∧
  maxlen (MultilevelCache.put_queue m2) = maxlen (MultilevelCache.put_queue m).
Proof.
  intros Hg Hp.
  assert (Happ : ∀ (x : Response) d, bounded (appendleft x d) ∧
                                      maxlen (appendleft x d) = maxlen d).
  { intros x d. unfold bounded, appendleft.
    destruct (maxlen d) as [n|]; simpl; [|done]. split; [|done].
    rewrite length_take. lia. }
  unfold MultilevelCache.get, MultilevelCache.put.
  destruct (CacheLevel.get _ _ _ _) as [[r|e] [front clk']];
    destruct (CacheLevel.put _ _ _ _ _) as [[r'|e'] [front' clk'']]; simpl;
    split_and!; try done; apply Happ.
Qed.

(** The multilevel cache as its constructor leaves it, with three
    levels. *)
Lemma history_stays_bounded_witness :
  let m := MultilevelCache.init three_levels (Some 5) in
  let m1 := fst (snd (MultilevelCache.get tick "a" m 0)) in
  let m2 := fst (snd (MultilevelCache.put tick "a" (VInt 97) m 0)) in
  bounded (MultilevelCache.get_queue m1) ∧ bounded (MultilevelCache.put_queue m1) ∧
  bounded (MultilevelCache.get_queue m2) ∧ bounded (MultilevelCache.put_queue m2) ∧
  maxlen (MultilevelCache.get_queue m1) = maxlen (MultilevelCache.get_queue m) ∧
  maxlen (MultilevelCache.put_queue m1) = maxlen (MultilevelCache.put_queue m) ∧
  maxlen (MultilevelCache.get_queue m2) = maxlen (MultilevelCache.get_queue m) ∧
  maxlen (MultilevelCache.put_queue m2) = maxlen (MultilevelCache.put_queue m).
Proof.
  apply (history_stays_bounded tick "a" (VInt 97)
           (MultilevelCache.init three_levels (Some 5)) 0);
    vm_compute; lia.
Defined.

(** X9: a read that returns puts its response, whose value is the
    value returned, at the front of the read queue and drops what no
    longer fits at the back: with [maxlen] [n] the queue then holds the
    smaller of [n] and one more than before.  The write queue is not
    touched. *)
Theorem read_is_recorded time key m clk v m' clk' n :
  MultilevelCache.get time key m clk = (Ret v, (m', clk')) →
  maxlen (MultilevelCache.get_queue m) = Some n →
  ∃ r, value r = v ∧
       items (MultilevelCache.get_queue m')
         = take n (r :: items (MultilevelCache.get_queue m)) ∧
       length (items (MultilevelCache.get_queue m'))
         = n `min` S (length (items (MultilevelCache.get_queue m))) ∧
       MultilevelCache.put_queue m' = MultilevelCache.put_queue m.
Proof.
  unfold MultilevelCache.get.
  destruct (CacheLevel.get _ _ _ _) as [[r|e] [front clk'']]; [|done].
  intros [= <- <- _] Hn. exists r. simpl. unfold appendleft. rewrite Hn. simpl.
  split_and!; try done. by rewrite length_take.
Qed.

(** X10: a read of a key that the front level holds returns the value
    stored there, after two clock readings; no level is changed, and
    the response is recorded. *)
Theorem front_hit time key value l rest m clk :
  MultilevelCache.front_cache_level m = l :: rest →
  holds key value l →
  MultilevelCache.get time key m clk =
  (Ret value,
   (MultilevelCache.mk (l :: rest)
      (appendleft (mkResponse value (time (S clk) - time clk))
         (MultilevelCache.get_queue m))
      (MultilevelCache.put_queue m),
    S (S clk))).
Proof.
  intros Hfront Hl. unfold MultilevelCache.get.
  by rewrite Hfront, (level_get_hit time key value l rest clk Hl).
Qed.

(** X11: a read that returns can be repeated: the next read of the key
    returns the same value from the front level and changes no
    level. *)
Theorem read_again time key m clk v m' clk' :
  MultilevelCache.get time key m clk = (Ret v, (m', clk')) →
  ∃ m'', MultilevelCache.get time key m' clk' = (Ret v, (m'', S (S clk'))) ∧
         MultilevelCache.front_cache_level m'' = MultilevelCache.front_cache_level m'.
Proof.
  unfold MultilevelCache.get at 1.
  destruct (CacheLevel.get _ _ _ _) as [[r|e] [front clk'']] eqn:Hget; [|done].
  intros [= <- <- <-].
  apply level_get_ret_holds in Hget as (l & rest & -> & Hl).
  eexists. split.
  - unfold MultilevelCache.get.
    cbn [MultilevelCache.front_cache_level MultilevelCache.get_queue
         MultilevelCache.put_queue].
    by rewrite (level_get_hit time key _ l rest _ Hl).
  - done.
Qed.

(** X12: a write that returns can be read back: the next read of the
    key returns the written value from the front level and changes no
    level. *)
Theorem write_then_read time key value m clk m' clk' :
  MultilevelCache.put time key value m clk = (Ret tt, (m', clk')) →
  ∃ m'', MultilevelCache.get time key m' clk' = (Ret value, (m'', S (S clk'))) ∧
         MultilevelCache.front_cache_level m'' = MultilevelCache.front_cache_level m'.
Proof.
  unfold MultilevelCache.put.
  destruct (CacheLevel.put _ _ _ _ _) as [[r|e] [front clk'']] eqn:Hput; [|done].
  intros [= <- <-].
  destruct (MultilevelCache.front_cache_level m) as [|l0 rest0] eqn:Hm; [done|].
  apply (level_put_ret time key value) in Hput as [Hlen Hall].
  destruct front as [|l rest]; [done|]. apply Forall_cons in Hall as [Hl _].
  eexists. split.
  - unfold MultilevelCache.get.
    cbn [MultilevelCache.front_cache_level MultilevelCache.get_queue
         MultilevelCache.put_queue].
    by rewrite (level_get_hit time key _ l rest _ Hl).
  - done.
Qed.

(** X13: a write that raises is not undone: the levels before the one
    whose cache raised hold the written value, that level is left as
    its [Cache.put] left it, the levels after it are as they were, and
    the exception is the one its [Cache.put] raised. *)
Theorem write_through_stops_where_it_fails time key value m clk e m' clk' :
  MultilevelCache.front_cache_level m ≠ [] →
  MultilevelCache.put time key value m clk = (Exc e, (m', clk')) →
  ∃ (before : list CacheLevel.t) l after (before' : list CacheLevel.t) c',
    MultilevelCache.front_cache_level m = (before ++ l :: after)%list ∧
    MultilevelCache.front_cache_level m'
      = (before' ++ CacheLevel.with_cache l c' :: after)%list ∧
    length before' = length before ∧
    Forall (holds key value) before' ∧
    Cache.put key value (CacheLevel.cache_provider l) = (Exc e, c').
Proof.
  intros Hne. unfold MultilevelCache.put.
  destruct (CacheLevel.put _ _ _ _ _) as [[r|e1] [front clk'']] eqn:Hput; [done|].
  intros [= <- <- _]. simpl. by eapply level_put_exc.
Qed.

(** A read through to the second of two levels: the history of five
    then holds the one response. *)
Lemma read_is_recorded_witness :
  let m := MultilevelCache.init two_levels (Some 5) in
  let res := MultilevelCache.get tick "x" m 0 in
  res = (Ret (VReadResponse (VInt 120) 1), (fst (snd res), 4)) ∧
  ∃ r, value r = VReadResponse (VInt 120) 1 ∧
       items (MultilevelCache.get_queue (fst (snd res)))
         = take 5 (r :: items (MultilevelCache.get_queue m)) ∧
       length (items (MultilevelCache.get_queue (fst (snd res))))
         = 5 `min` S (length (items (MultilevelCache.get_queue m))) ∧
       MultilevelCache.put_queue (fst (snd res)) = MultilevelCache.put_queue m.
Proof.
  split; [reflexivity|].
  apply (read_is_recorded tick "x" (MultilevelCache.init two_levels (Some 5)) 0
           (VReadResponse (VInt 120) 1) _ 4 5); reflexivity.
Defined.

(** A read of the key the only level holds. *)
Lemma front_hit_witness :
  let m := MultilevelCache.init [populated_level] (Some 5) in
  holds "x" (VInt 120) populated_level ∧
  MultilevelCache.get tick "x" m 0 =
  (Ret (VInt 120),
   (MultilevelCache.mk [populated_level]
      (appendleft (mkResponse (VInt 120) (tick 1 - tick 0))
         (MultilevelCache.get_queue m))
      (MultilevelCache.put_queue m),
    2)).
Proof.
  assert (H : holds "x" (VInt 120) populated_level) by reflexivity.
  split; [exact H|].
  exact (front_hit tick "x" (VInt 120) populated_level []
           (MultilevelCache.init [populated_level] (Some 5)) 0 eq_refl H).
Defined.

(** A read through to the second of two levels, then the same read. *)
Lemma read_again_witness :
  let m := MultilevelCache.init two_levels (Some 5) in
  let res := MultilevelCache.get tick "x" m 0 in
  res = (Ret (VReadResponse (VInt 120) 1), (fst (snd res), 4)) ∧
  ∃ m'', MultilevelCache.get tick "x" (fst (snd res)) 4
           = (Ret (VReadResponse (VInt 120) 1), (m'', 6)) ∧
         MultilevelCache.front_cache_level m''
           = MultilevelCache.front_cache_level (fst (snd res)).
Proof.
  split; [reflexivity|].
  apply (read_again tick "x" (MultilevelCache.init two_levels (Some 5)) 0
           (VReadResponse (VInt 120) 1) _ 4); reflexivity.
Defined.

(** A write into the three-level chain, then a read of the key. *)
Lemma write_then_read_witness :
  let m := MultilevelCache.init three_levels (Some 5) in
  let res := MultilevelCache.put tick "y" (VInt 121) m 0 in
  res = (Ret tt, (fst (snd res), 6)) ∧
  ∃ m'', MultilevelCache.get tick "y" (fst (snd res)) 6 = (Ret (VInt 121), (m'', 8)) ∧
         MultilevelCache.front_cache_level m''
           = MultilevelCache.front_cache_level (fst (snd res)).
Proof.
  split; [reflexivity|].
  apply (write_then_read tick "y" (VInt 121)
           (MultilevelCache.init three_levels (Some 5)) 0 _ 6); reflexivity.
Defined.

(** A write into a chain whose second level has capacity zero: the
    first level keeps the write, the second raises. *)
Lemma write_through_stops_where_it_fails_witness :
  let m := MultilevelCache.init levels_with_zero (Some 5) in
  let res := MultilevelCache.put tick "y" (VInt 121) m 0 in
  res = (Exc (AttributeError "val"), (fst (snd res), 2)) ∧
  ∃ (before : list CacheLevel.t) l after (before' : list CacheLevel.t) c',
    MultilevelCache.front_cache_level m = (before ++ l :: after)%list ∧
    MultilevelCache.front_cache_level (fst (snd res))
      = (before' ++ CacheLevel.with_cache l c' :: after)%list ∧
    length before' = length before ∧
    Forall (holds "y" (VInt 121)) before' ∧
    Cache.put "y" (VInt 121) (CacheLevel.cache_provider l)
      = (Exc (AttributeError "val"), c').
Proof.
  split; [reflexivity|].
  apply (write_through_stops_where_it_fails tick "y" (VInt 121)
           (MultilevelCache.init levels_with_zero (Some 5)) 0
           (AttributeError "val") _ 2); [discriminate|reflexivity].
Defined.

(** ** Writes of distinct keys *)

Section Fresh_keys.

Implicit Types (p : LRUKeyAccessPolicy.t) (key : string).

Local Arguments LL.write : simpl never.
Local Arguments LL.node_at : simpl never.

(** The first access to a key allocates a node, tracks the key under
    it and puts it at the head, before the old head; the list is
    otherwise as it was. *)
Lemma key_accessed_new key p :
  LRUKeyAccessPolicy.hashmap p !! key = None →
  head_allocated (LRUKeyAccessPolicy.ll p) →
  let n := length (LL.nodes (LRUKeyAccessPolicy.ll p)) in
  ∃ p', LRUKeyAccessPolicy.key_accessed key p = (Ret tt, p') ∧
    LRUKeyAccessPolicy.hashmap p' = <[key := n]> (LRUKeyAccessPolicy.hashmap p) ∧
    length (LL.nodes (LRUKeyAccessPolicy.ll p')) = S n ∧
    LL.head (LRUKeyAccessPolicy.ll p') = Some n ∧
    LL.tail (LRUKeyAccessPolicy.ll p')
      = match LL.head (LRUKeyAccessPolicy.ll p) with
        | None => Some n
        | Some _ => LL.tail (LRUKeyAccessPolicy.ll p)
        end ∧
    val (LL.node_at (LRUKeyAccessPolicy.ll p') n) = key ∧
    (∀ m, m < n → val (LL.node_at (LRUKeyAccessPolicy.ll p') m)
                  = val (LL.node_at (LRUKeyAccessPolicy.ll p) m)) ∧
    (∀ m, m < n → prev (LL.node_at (LRUKeyAccessPolicy.ll p') m)
                  = if decide (LL.head (LRUKeyAccessPolicy.ll p) = Some m) then Some n
                    else prev (LL.node_at (LRUKeyAccessPolicy.ll p) m)).
Proof.
  intros Hk Halloc n.
  set (l := LRUKeyAccessPolicy.ll p) in *.
  set (l1 := LL.mk (LL.nodes l ++ [mkNode key None None]) (LL.head l) (LL.tail l)).
  assert (Hnew : LL.node_at l1 n = mkNode key None None).
  { unfold LL.node_at, l1, n; simpl. by rewrite lookup_app_r, Nat.sub_diag by lia. }
  assert (Hold : ∀ m, m < n → LL.node_at l1 m = LL.node_at l m).
  { intros m Hm. unfold LL.node_at, l1; simpl. by rewrite lookup_app_l. }
  assert (Hlen1 : length (LL.nodes l1) = S n).
  { unfold l1, n; simpl. rewrite length_app; simpl. lia. }
  assert (Hrun : LRUKeyAccessPolicy.key_accessed key p =
                 let '(o, l') := LL.make_node_head n l1 in
                 (o, LRUKeyAccessPolicy.mk (<[key := n]> (LRUKeyAccessPolicy.hashmap p)) l')).
  { unfold LRUKeyAccessPolicy.key_accessed, bind, gets; simpl. rewrite Hk.
    unfold LRUKeyAccessPolicy.in_ll, zoom; simpl. fold l l1 n.
    by destruct (LL.make_node_head n l1). }
  rewrite Hrun, make_node_head_unfold.
  unfold LL.make_node_head_body at 1. unfold bind, gets; simpl.
  destruct (decide (Some n = LL.head l)) as [Heq|Hne].
  { symmetry in Heq. apply Halloc in Heq. unfold n, l in Heq. lia. }
  destruct (LL.head l) as [h|] eqn:Hh.
  - (* before the old head *)
    destruct (decide (Some h = None)) as [|_]; [done|].
    rewrite Hnew; simpl.
    eexists. split; [done|]. simpl.
    assert (Hh' : h < n) by (by apply Halloc).
    split_and!; try done.
    + by rewrite !length_insert.
    + change (val (LL.node_at (LL.write h (λ x, mkNode (val x) (Some n) (next x))
                (LL.write n (λ x, mkNode (val x) (prev x) (Some h)) l1)) n) = key).
      by rewrite !val_write, Hnew.
    + intros m Hm.
      change (val (LL.node_at (LL.write h (λ x, mkNode (val x) (Some n) (next x))
                (LL.write n (λ x, mkNode (val x) (prev x) (Some h)) l1)) m)
              = val (LL.node_at l m)).
      by rewrite !val_write, Hold.
    + intros m Hm.
      change (prev (LL.node_at (LL.write h (λ x, mkNode (val x) (Some n) (next x))
                (LL.write n (λ x, mkNode (val x) (prev x) (Some h)) l1)) m)
              = if decide (Some h = Some m) then Some n else prev (LL.node_at l m)).
      rewrite prev_write_prev, prev_write_next, length_write, Hold by done.
      repeat case_decide; try done; naive_solver lia.
  - (* into the empty list *)
    destruct (decide (None = None)) as [_|]; [|done]. simpl.
    eexists. split; [done|]. simpl.
    split_and!; try done.
    + by rewrite !length_insert.
    + change (val (LL.node_at (LL.write n (λ x, mkNode (val x) (Some n) (next x))
                (LL.write n (λ x, mkNode (val x) (prev x) (Some n))
                   (LL.mk (LL.nodes l1) (Some n) (Some n)))) n) = key).
      by rewrite !val_write, node_at_mk, Hnew.
    + intros m Hm.
      change (val (LL.node_at (LL.write n (λ x, mkNode (val x) (Some n) (next x))
                (LL.write n (λ x, mkNode (val x) (prev x) (Some n))
                   (LL.mk (LL.nodes l1) (Some n) (Some n)))) m) = val (LL.node_at l m)).
      by rewrite !val_write, node_at_mk, Hold.
    + intros m Hm.
      change (prev (LL.node_at (LL.write n (λ x, mkNode (val x) (Some n) (next x))
                (LL.write n (λ x, mkNode (val x) (prev x) (Some n))
                   (LL.mk (LL.nodes l1) (Some n) (Some n)))) m)
              = if decide (None = Some m) then Some n else prev (LL.node_at l m)).
      rewrite prev_write_prev, prev_write_next, node_at_mk, Hold by done.
      rewrite decide_False by (intros [? _]; lia). by rewrite decide_False.
Qed.

(** An access to the key at the head changes nothing. *)
Lemma key_accessed_at_head key p n :
  LRUKeyAccessPolicy.hashmap p !! key = Some n →
  LL.head (LRUKeyAccessPolicy.ll p) = Some n →
  LRUKeyAccessPolicy.key_accessed key p = (Ret tt, p).
Proof.
  intros Hk Hh.
  unfold LRUKeyAccessPolicy.key_accessed, bind, gets; simpl. rewrite Hk.
  unfold LRUKeyAccessPolicy.in_ll, zoom. rewrite make_node_head_unfold.
  unfold LL.make_node_head_body, bind, gets; simpl. rewrite Hh.
  rewrite decide_True by done. by destruct p.
Qed.

(** [key_to_remove] on a list of one node, and on a longer list whose
    tail has a predecessor. *)
Lemma key_to_remove_only p t :
  LL.head (LRUKeyAccessPolicy.ll p) = Some t →
  LL.tail (LRUKeyAccessPolicy.ll p) = Some t →
  is_Some (LRUKeyAccessPolicy.hashmap p !! val (LL.node_at (LRUKeyAccessPolicy.ll p) t)) →
  let k := val (LL.node_at (LRUKeyAccessPolicy.ll p) t) in
  LRUKeyAccessPolicy.key_to_remove p =
  (Ret k, LRUKeyAccessPolicy.mk (delete k (LRUKeyAccessPolicy.hashmap p))
            (LL.mk (LL.nodes (LRUKeyAccessPolicy.ll p)) None None)).
Proof.
  intros Hh Ht [n Hn] k.
  unfold LRUKeyAccessPolicy.key_to_remove, LL.key_to_remove, LRUKeyAccessPolicy.in_ll,
    zoom, bind, gets; simpl.
  rewrite Hh, Ht. rewrite decide_True by done. simpl.
  rewrite Hh. simpl. unfold gets. rewrite node_at_mk. subst k. rewrite Hn. simpl.
  by rewrite node_at_mk.
Qed.

Lemma key_to_remove_more p t q :
  LL.head (LRUKeyAccessPolicy.ll p) ≠ Some t →
  LL.tail (LRUKeyAccessPolicy.ll p) = Some t →
  prev (LL.node_at (LRUKeyAccessPolicy.ll p) t) = Some q →
  is_Some (LRUKeyAccessPolicy.hashmap p !! val (LL.node_at (LRUKeyAccessPolicy.ll p) t)) →
  let k := val (LL.node_at (LRUKeyAccessPolicy.ll p) t) in
  ∃ p', LRUKeyAccessPolicy.key_to_remove p = (Ret k, p') ∧
    LRUKeyAccessPolicy.hashmap p' = delete k (LRUKeyAccessPolicy.hashmap p) ∧
    length (LL.nodes (LRUKeyAccessPolicy.ll p'))
      = length (LL.nodes (LRUKeyAccessPolicy.ll p)) ∧
    LL.head (LRUKeyAccessPolicy.ll p') = LL.head (LRUKeyAccessPolicy.ll p) ∧
    LL.tail (LRUKeyAccessPolicy.ll p') = Some q ∧
    (∀ m, val (LL.node_at (LRUKeyAccessPolicy.ll p') m)
          = val (LL.node_at (LRUKeyAccessPolicy.ll p) m)) ∧
    (∀ m, prev (LL.node_at (LRUKeyAccessPolicy.ll p') m)
          = prev (LL.node_at (LRUKeyAccessPolicy.ll p) m)).
Proof.
  intros Hh Ht Hq [n Hn] k.
  set (l := LRUKeyAccessPolicy.ll p) in *.
  set (l2 := LL.write q (λ x, mkNode (val x) (prev x) None) l).
  assert (Hll : LL.key_to_remove l =
                (Ret (Some t), LL.mk (LL.nodes l2) (LL.head l) (Some q))).
  { unfold LL.key_to_remove, bind, gets; simpl. rewrite Ht.
    rewrite decide_False by done. cbv beta. rewrite Ht. simpl. rewrite Hq. simpl.
    change (LL.tail (LL.write q (λ x, mkNode (val x) (prev x) None) l)) with (LL.tail l).
    rewrite Ht. simpl. by rewrite prev_write_next, Hq. }
  unfold LRUKeyAccessPolicy.key_to_remove, LRUKeyAccessPolicy.in_ll, zoom, bind.
  fold l. rewrite Hll. simpl. unfold gets; simpl.
  rewrite (node_at_nodes _ l2 t) by done.
  unfold l2 at 1. rewrite val_write by done. subst k. rewrite Hn. simpl.
  rewrite (node_at_nodes _ l2 t) by done. unfold l2 at 1. rewrite val_write by done.
  eexists. split; [done|]. simpl. split_and!; try done.
  - unfold l2. by rewrite val_write.
  - by rewrite length_insert.
  - intros m. rewrite (node_at_nodes _ l2 m) by done. unfold l2. by rewrite val_write.
  - intros m. rewrite (node_at_nodes _ l2 m) by done. unfold l2.
    by rewrite prev_write_next.
Qed.

End Fresh_keys.

Section Fifo.

Local Arguments LL.write : simpl never.
Local Arguments LL.node_at : simpl never.

Lemma fifo_shape_init : fifo_shape LRUKeyAccessPolicy.init 0 [].
Proof.
  split; [constructor|]. split; [done|]. split; [done|]. split; [done|].
  split; [|split].
  - intros j k Hj. by rewrite lookup_nil in Hj.
  - done.
  - simpl. lia.
Qed.

Lemma fifo_access_new p lo live k :
  fifo_shape p lo live → k ∉ live →
  ∃ p', LRUKeyAccessPolicy.key_accessed k p = (Ret tt, p') ∧
        fifo_shape p' lo (live ++ [k]).
Proof.
  intros (Hnd & Hlen & Hhead & Htail & H1 & H2 & Hprev) Hk.
  destruct (key_accessed_new k p) as (p' & Hacc & Hh' & Hl' & Hd' & Ht' & Hv' & Hvo & Hpo).
  { by apply H2. }
  { intros h. rewrite Hhead, Hlen. destruct (decide (live = [])) as [|Hne]; [done|].
    intros [= <-]. destruct live; [done|]. simpl. lia. }
  rewrite Hlen in *.
  exists p'. split; [done|].
  assert (Hsn : length (live ++ [k]) = S (length live)).
  { rewrite length_app. simpl. lia. }
  assert (Hnil : (live ++ [k])%list ≠ []) by (by destruct live).
  split; [|split; [|split; [|split; [|split; [|split]]]]].
  - apply NoDup_app. split; [done|]. split; [|apply NoDup_singleton].
    intros x Hx Hx'. apply list_elem_of_singleton in Hx'. by subst.
  - rewrite Hl', Hsn. lia.
  - rewrite Hd', Hsn. rewrite decide_False by exact Hnil. f_equal. lia.
  - rewrite (decide_False (P := (live ++ [k])%list = [])) by exact Hnil.
    rewrite Ht', Hhead, Htail.
    destruct (decide (live = [])) as [->|]; [|done]. simpl. f_equal. lia.
  - intros j k' Hj.
    destruct (decide (j < length live)) as [Hlt|Hge].
    + rewrite lookup_app_l in Hj by done.
      destruct (H1 _ _ Hj) as [Hm Hv].
      assert (k' ≠ k).
      { intros ->. apply Hk. by apply list_elem_of_lookup_2 in Hj. }
      rewrite Hh', lookup_insert_ne by done.
      split; [done|]. rewrite Hvo by lia. done.
    + assert (j = length live) as ->.
      { apply lookup_lt_Some in Hj. rewrite Hsn in Hj. lia. }
      rewrite list_lookup_middle in Hj by done. injection Hj as <-.
      rewrite Hh', lookup_insert_eq. done.
  - intros k' Hk'. rewrite not_elem_of_app in Hk'. destruct Hk' as [Hk1 Hk2].
    rewrite list_elem_of_singleton in Hk2.
    rewrite Hh', lookup_insert_ne by done. by apply H2.
  - intros j Hj. rewrite Hsn in Hj.
    rewrite Hpo by lia. rewrite Hhead.
    destruct (decide (live = [])) as [->|Hne]; [simpl in Hj; lia|].
    destruct (decide (S j < length live)) as [Hlt|Hge].
    + rewrite decide_False by (intros [=]; lia). by apply Hprev.
    + rewrite decide_True by (f_equal; lia). f_equal. lia.
Qed.

Lemma fifo_access_last p lo live k :
  fifo_shape p lo (live ++ [k]) →
  LRUKeyAccessPolicy.key_accessed k p = (Ret tt, p).
Proof.
  intros (Hnd & Hlen & Hhead & Htail & H1 & H2 & Hprev).
  destruct (H1 (length live) k) as [Hm _]; [by apply list_lookup_middle|].
  apply (key_accessed_at_head _ _ _ Hm).
  rewrite Hhead. rewrite decide_False by (by destruct live).
  f_equal. rewrite length_app. simpl. lia.
Qed.

Lemma fifo_remove p lo k0 rest :
  fifo_shape p lo (k0 :: rest) →
  ∃ p', LRUKeyAccessPolicy.key_to_remove p = (Ret k0, p') ∧
        fifo_shape p' (S lo) rest.
Proof.
  intros (Hnd & Hlen & Hhead & Htail & H1 & H2 & Hprev).
  destruct (H1 0 k0 eq_refl) as [Hm0 Hv0]. rewrite Nat.add_0_r in Hm0, Hv0.
  rewrite decide_False in Hhead, Htail by done.
  apply NoDup_cons in Hnd as [Hk0 Hnd].
  assert (Hdel : ∀ k, k ∉ rest →
            delete k0 (LRUKeyAccessPolicy.hashmap p) !! k = None).
  { intros k Hk. destruct (decide (k = k0)) as [->|Hne].
    - by rewrite lookup_delete_eq.
    - rewrite lookup_delete_ne by done. apply H2.
      rewrite not_elem_of_cons. done. }
  destruct rest as [|k1 rest].
  - simpl in Hlen, Hhead. replace (lo + 1 - 1) with lo in Hhead by lia.
    pose proof (key_to_remove_only p lo Hhead Htail) as Hr.
    rewrite Hv0 in Hr. specialize (Hr (ex_intro _ _ Hm0)). simpl in Hr.
    eexists. split; [exact Hr|].
    split; [constructor|]. split; [simpl; lia|]. split; [done|]. split; [done|].
    split; [|split].
    + intros j k Hj. by rewrite lookup_nil in Hj.
    + intros k Hk. by apply Hdel.
    + simpl. lia.
  - assert (Hq : prev (LL.node_at (LRUKeyAccessPolicy.ll p) lo) = Some (S lo)).
    { specialize (Hprev 0). rewrite Nat.add_0_r in Hprev.
      rewrite Hprev by (simpl; lia). f_equal. lia. }
    destruct (key_to_remove_more p lo (S lo)) as (p' & Hr & Hh' & Hl' & Hd' & Ht' & Hv' & Hp');
      try done.
    { rewrite Hhead. simpl. intros [=]. lia. }
    { rewrite Hv0. by eexists. }
    rewrite Hv0 in Hr, Hh'.
    exists p'. split; [done|].
    split; [done|]. split; [|split; [|split; [|split; [|split]]]].
    + rewrite Hl', Hlen. simpl. lia.
    + rewrite Hd', Hhead. rewrite decide_False by done. f_equal. simpl. lia.
    + rewrite Ht'. by rewrite decide_False.
    + intros j k Hj. replace (S lo + j) with (lo + S j) by lia.
      destruct (H1 (S j) k Hj) as [Hm Hv].
      rewrite Hh', Hv'. split; [|done].
      rewrite lookup_delete_ne; [done|].
      intros <-. apply Hk0. by apply list_elem_of_lookup_2 in Hj.
    + intros k Hk. rewrite Hh'. by apply Hdel.
    + intros j Hj. replace (S lo + j) with (lo + S j) by lia.
      rewrite Hp'. rewrite Hprev by (simpl in *; lia). f_equal. lia.
Qed.

Lemma storage_remove_eq key st :
  HashMapBasedStorage.remove key st =
  match HashMapBasedStorage.db st !! key with
  | Some _ => (Ret tt, HashMapBasedStorage.set_db (delete key) st)
  | None => (Exc (KeyError key), st)
  end.
Proof.
  unfold HashMapBasedStorage.remove, bind, gets; simpl.
  by destruct (_ !! _).
Qed.

Lemma window_short {A} K (l : list A) : length l ≤ K → window K l = l.
Proof.
  intros H. unfold window. replace (length l - K) with 0 by lia. apply drop_0.
Qed.

Lemma window_snoc {A} K (l : list A) x :
  1 ≤ K → window K (window K l ++ [x]) = window K (l ++ [x]).
Proof.
  intros HK. unfold window.
  rewrite !length_app, length_drop. simpl.
  destruct (decide (length l ≤ K)) as [Hle|Hgt].
  - replace (length l - K) with 0 by lia. rewrite drop_0. f_equal. lia.
  - rewrite (drop_app_le l) by lia.
    rewrite drop_app_le by (rewrite length_drop; lia).
    rewrite drop_drop. f_equal. f_equal. lia.
Qed.

Lemma cache_fifo_init K : cache_fifo (new_cache (Finite K)) K 0 [].
Proof.
  split; [done|]. split; [done|]. split; [simpl; lia|]. apply fifo_shape_init.
Qed.

Lemma cache_fifo_put c K lo live k v :
  1 ≤ K → cache_fifo c K lo live → k ∉ live.*1 →
  ∃ c' lo', Cache.put k v c = (Ret tt, c') ∧
            cache_fifo c' K lo' (window K (live ++ [(k, v)])).
Proof.
  intros HK (Hcap & Hdb & Hlen & Hshape) Hk.
  pose proof Hshape as (Hnd & _).
  assert (Hsize : size (HashMapBasedStorage.db (Cache.storage c)) = length live).
  { unfold db_of in Hdb. rewrite Hdb. by apply map_size_list_to_map. }
  rewrite put_unfold.
  destruct (decide (length live < K)) as [Hlt|Hge].
  - assert (Hnf : full (Cache.storage c) = false).
    { unfold full. rewrite Hsize, Hcap. simpl. apply Nat.eqb_neq. lia. }
    rewrite put_body_not_full by done.
    destruct (fifo_access_new _ _ _ k Hshape Hk) as (p' & -> & Hs').
    eexists _, lo. split; [done|].
    rewrite window_short by (rewrite length_app; simpl; lia).
    split; [done|]. split; [|split].
    + unfold db_of in *. simpl. rewrite Hdb. by rewrite list_to_map_snoc.
    + rewrite length_app. simpl. lia.
    + simpl. by rewrite fmap_app.
  - assert (Hfull : full (Cache.storage c) = true).
    { unfold full. rewrite Hsize, Hcap. simpl. apply Nat.eqb_eq. lia. }
    destruct live as [|[k0 v0] rest]; [simpl in *; lia|].
    simpl in Hlen, Hge, Hshape, Hnd, Hk.
    apply not_elem_of_cons in Hk as [Hkk0 Hk].
    apply NoDup_cons in Hnd as [Hk0 Hnd].
    destruct (fifo_remove _ _ _ _ Hshape) as (p1 & Hrem & Hs1).
    destruct (fifo_access_new _ _ _ k Hs1 Hk) as (p2 & Hacc & Hs2).
    pose proof (fifo_access_last _ _ _ _ Hs2) as Hacc2.
    assert (Hw : window K (((k0, v0) :: rest) ++ [(k, v)]) = (rest ++ [(k, v)])%list).
    { unfold window. simpl. rewrite length_app. simpl.
      replace (S (length rest + 1) - K) with 1 by lia. done. }
    rewrite Hw.
    set (c1 := Cache.mk (HashMapBasedStorage.set_db (delete k0) (Cache.storage c)) p1).
    assert (Hdb1 : HashMapBasedStorage.db (Cache.storage c1) = list_to_map rest).
    { unfold db_of in Hdb. simpl. rewrite Hdb. simpl.
      rewrite delete_insert_eq. apply delete_id.
      by apply not_elem_of_list_to_map_1. }
    assert (Hnf1 : full (Cache.storage c1) = false).
    { unfold full. rewrite Hdb1. rewrite map_size_list_to_map by done.
      simpl. rewrite Hcap. simpl. apply Nat.eqb_neq. lia. }
    exists (Cache.mk (HashMapBasedStorage.set_db (insert k v) (Cache.storage c1)) p2), (S lo).
    split.
    + unfold Cache.put_body at 1.
      unfold try_except, bind, Cache.in_storage, Cache.in_policy, zoom.
      rewrite storage_put_eq, Hfull. simpl.
      rewrite Hrem. rewrite storage_remove_eq.
      cbn [Cache.storage Cache.key_access_policy].
      assert (HashMapBasedStorage.db (Cache.storage c) !! k0 = Some v0) as ->.
      { unfold db_of in Hdb. rewrite Hdb. simpl. apply lookup_insert_eq. }
      cbn [Cache.storage Cache.key_access_policy]. fold c1.
      rewrite (put_body_not_full _ _ _ c1 Hnf1). simpl. rewrite Hacc. simpl.
      rewrite Hacc2. done.
    + split; [done|]. split; [|split].
      * unfold db_of. simpl. fold c1. simpl in Hdb1. rewrite Hdb1.
        by rewrite list_to_map_snoc.
      * rewrite length_app. simpl. lia.
      * simpl. by rewrite fmap_app.
Qed.

Lemma run_puts_fifo K ops : ∀ c lo seen,
  1 ≤ K → cache_fifo c K lo (window K seen) →
  NoDup ((seen ++ ops)%list.*1) →
  ∃ c' lo', run_puts ops c = (Ret tt, c') ∧
            cache_fifo c' K lo' (window K (seen ++ ops)).
Proof.
  induction ops as [|[k v] ops IH]; intros c lo seen HK Hc Hnd.
  - exists c, lo. rewrite app_nil_r. done.
  - assert (Hk : k ∉ (window K seen).*1).
    { rewrite fmap_app in Hnd. apply NoDup_app in Hnd as (_ & Hd & _).
      intros Hin. apply (Hd k); [|simpl; left].
      unfold window in Hin. rewrite fmap_drop in Hin.
      by apply (subseteq_drop _ _ _ Hin). }
    destruct (cache_fifo_put _ _ _ _ k v HK Hc Hk) as (c1 & lo1 & Hput & Hc1).
    rewrite window_snoc in Hc1 by done.
    destruct (IH c1 lo1 (seen ++ [(k, v)])%list HK Hc1) as (c' & lo' & Hrun & Hc').
    { by rewrite <- app_assoc. }
    exists c', lo'. split.
    + simpl. unfold bind. by rewrite Hput.
    + by rewrite <- app_assoc in Hc'.
Qed.

End Fifo.

Section Fifo_chain.

Variable time : nat → Z.

Lemma window_keys {A} K (seen : list (string * A)) key :
  key ∉ seen.*1 → key ∉ (window K seen).*1.
Proof.
  intros Hk Hin. apply Hk. unfold window in Hin. rewrite fmap_drop in Hin.
  by apply (subseteq_drop _ _ _ Hin).
Qed.

Lemma level_put_fifo key value seen : ∀ ref clk,
  ref ≠ [] → Forall (level_fifo seen) ref → key ∉ seen.*1 →
  ∃ r ref' clk',
    CacheLevel.put time key value ref clk = (Ret r, (ref', clk')) ∧
    length ref' = length ref ∧
    Forall (level_fifo (seen ++ [(key, value)])) ref'.
Proof.
  induction ref as [|self next IH]; intros clk Hne Hall Hk; [done|].
  apply Forall_cons in Hall as [(K & lo & HK & Hc) Hnext].
  destruct (cache_fifo_put _ _ _ _ key value HK Hc (window_keys K _ _ Hk))
    as (c' & lo' & Hput & Hc').
  rewrite window_snoc in Hc' by done.
  assert (Hself : level_fifo (seen ++ [(key, value)]) (CacheLevel.with_cache self c'))
    by (by exists K, lo').
  simpl. rewrite Hput.
  destruct next as [|l next].
  - eexists _, _, _. split; [done|]. split; [done|]. by constructor.
  - destruct (IH (S clk)) as (r & ref' & clk' & -> & Hlen & Hall'); [done..|].
    eexists _, _, _. split; [done|]. split; [simpl; by rewrite Hlen|]. by constructor.
Qed.

Lemma write_all_fifo ops : ∀ m clk seen,
  MultilevelCache.front_cache_level m ≠ [] →
  Forall (level_fifo seen) (MultilevelCache.front_cache_level m) →
  NoDup ((seen ++ ops)%list.*1) →
  ∃ m' clk',
    write_all time ops m clk = (Ret tt, (m', clk')) ∧
    length (MultilevelCache.front_cache_level m')
      = length (MultilevelCache.front_cache_level m) ∧
    Forall (level_fifo (seen ++ ops)) (MultilevelCache.front_cache_level m').
Proof.
  induction ops as [|[k v] ops IH]; intros m clk seen Hne Hall Hnd.
  - exists m, clk. rewrite app_nil_r. done.
  - assert (Hk : k ∉ seen.*1).
    { rewrite fmap_app in Hnd. apply NoDup_app in Hnd as (_ & Hd & _).
      intros Hin. apply (Hd k); [done|simpl; left]. }
    destruct (level_put_fifo k v seen _ clk Hne Hall Hk)
      as (r & ref' & clk' & Hput & Hlen & Hall').
    simpl. unfold MultilevelCache.put. rewrite Hput.
    destruct (IH (MultilevelCache.mk ref' (MultilevelCache.get_queue m)
                    (appendleft r (MultilevelCache.put_queue m)))
                 clk' (seen ++ [(k, v)])%list)
      as (m' & clk'' & Hrun & Hlen' & Hall'').
    { simpl. intros ->. by destruct (MultilevelCache.front_cache_level m). }
    { done. }
    { by rewrite <- app_assoc. }
    exists m', clk''. split; [done|]. split.
    + rewrite Hlen'. done.
    + by rewrite <- app_assoc in Hall''.
Qed.

End Fifo_chain.

(** ** Writes of distinct keys *)

(** X14: writes of pairwise distinct keys into a new cache of capacity
    [K], at least one, all return, and the storage then holds exactly
    the last [K] of them, each with the value written. *)
Theorem distinct_writes_keep_the_last K ops :
  1 ≤ K → NoDup ops.*1 →
  ∃ c, run_puts ops (new_cache (Finite K)) = (Ret tt, c) ∧
       db_of c = list_to_map (drop (length ops - K) ops).
Proof.
  intros HK Hnd.
  destruct (run_puts_fifo K ops (new_cache (Finite K)) 0 [] HK) as (c & lo & Hrun & Hc).
  - rewrite window_short by (simpl; lia). apply cache_fifo_init.
  - done.
  - exists c. split; [done|]. by destruct Hc as (_ & Hdb & _).
Qed.

(** Three writes into a cache of capacity two. *)
Lemma distinct_writes_keep_the_last_witness :
  let ops := [("a", VInt 97); ("b", VInt 98); ("c", VInt 99)] in
  1 ≤ 2 ∧ NoDup ops.*1 ∧
  ∃ c, run_puts ops (new_cache (Finite 2)) = (Ret tt, c) ∧
       db_of c = list_to_map (drop (length ops - 2) ops).
Proof.
  assert (H : NoDup [("a", VInt 97); ("b", VInt 98); ("c", VInt 99)].*1).
  { simpl. apply (bool_decide_unpack _). by vm_compute. }
  split; [lia|]. split; [exact H|].
  apply (distinct_writes_keep_the_last 2
           [("a", VInt 97); ("b", VInt 98); ("c", VInt 99)]); [lia|exact H].
Defined.

(** X15: after writes of pairwise distinct keys into a new cache of
    capacity at least one, the key the policy gives up next is the
    oldest of the keys the storage still holds. *)
Theorem distinct_writes_evict_the_oldest K ops k v rest :
  1 ≤ K → NoDup ops.*1 →
  drop (length ops - K) ops = (k, v) :: rest →
  ∃ c p', run_puts ops (new_cache (Finite K)) = (Ret tt, c) ∧
          LRUKeyAccessPolicy.key_to_remove (Cache.key_access_policy c) = (Ret k, p').
Proof.
  intros HK Hnd Hdrop.
  destruct (run_puts_fifo K ops (new_cache (Finite K)) 0 [] HK) as (c & lo & Hrun & Hc).
  - rewrite window_short by (simpl; lia). apply cache_fifo_init.
  - done.
  - destruct Hc as (_ & _ & _ & Hshape). simpl in Hshape.
    unfold window in Hshape. rewrite Hdrop in Hshape. simpl in Hshape.
    destruct (fifo_remove _ _ _ _ Hshape) as (p' & Hrem & _).
    by exists c, p'.
Qed.

(** Three writes into a cache of capacity two: b is next. *)
Lemma distinct_writes_evict_the_oldest_witness :
  let ops := [("a", VInt 97); ("b", VInt 98); ("c", VInt 99)] in
  1 ≤ 2 ∧ NoDup ops.*1 ∧
  drop (length ops - 2) ops = [("b", VInt 98); ("c", VInt 99)] ∧
  ∃ c p', run_puts ops (new_cache (Finite 2)) = (Ret tt, c) ∧
          LRUKeyAccessPolicy.key_to_remove (Cache.key_access_policy c) = (Ret "b", p').
Proof.
  assert (H : NoDup [("a", VInt 97); ("b", VInt 98); ("c", VInt 99)].*1).
  { simpl. apply (bool_decide_unpack _). by vm_compute. }
  split; [lia|]. split; [exact H|]. split; [reflexivity|].
  apply (distinct_writes_evict_the_oldest 2
           [("a", VInt 97); ("b", VInt 98); ("c", VInt 99)] "b" (VInt 98) [("c", VInt 99)]);
    [lia|exact H|reflexivity].
Defined.

(** X16: writes of pairwise distinct keys through a multilevel cache
    whose levels are new, each of capacity at least one, all return,
    and every level then holds exactly the last writes, as many as its
    own capacity. *)
Theorem distinct_writes_through_the_levels time levels n ops clk :
  levels ≠ [] → Forall new_level levels → NoDup ops.*1 →
  ∃ m' clk',
    write_all time ops (MultilevelCache.init levels n) clk = (Ret tt, (m', clk')) ∧
    length (MultilevelCache.front_cache_level m') = length levels ∧
    Forall (keeps_last ops) (MultilevelCache.front_cache_level m').
Proof.
  intros Hne Hnew Hnd.
  destruct (write_all_fifo time ops (MultilevelCache.init levels n) clk [])
    as (m' & clk' & Hrun & Hlen & Hall); [done| |done|].
  - simpl. eapply Forall_impl; [exact Hnew|].
    intros l (K & HK & Hl). exists K, 0. split; [done|].
    rewrite Hl, window_short by (simpl; lia). apply cache_fifo_init.
  - exists m', clk'. split; [done|]. split; [done|].
    eapply Forall_impl; [exact Hall|].
    intros l (K & lo & _ & Hcap & Hdb & _). by exists K.
Qed.

(** The driver's run: the keys a to f written through three levels of
    capacity five. *)
Lemma distinct_writes_through_the_levels_witness :
  let ops := [("a", VInt 97); ("b", VInt 98); ("c", VInt 99);
              ("d", VInt 100); ("e", VInt 101); ("f", VInt 102)] in
  three_levels ≠ [] ∧ Forall new_level three_levels ∧ NoDup ops.*1 ∧
  ∃ m' clk',
    write_all tick ops (MultilevelCache.init three_levels (Some 5)) 0 = (Ret tt, (m', clk')) ∧
    length (MultilevelCache.front_cache_level m') = length three_levels ∧
    Forall (keeps_last ops) (MultilevelCache.front_cache_level m').
Proof.
  assert (H1 : three_levels ≠ []) by done.
  assert (H2 : Forall new_level three_levels).
  { repeat constructor; exists 5; (split; [lia|reflexivity]). }
  assert (H3 : NoDup [("a", VInt 97); ("b", VInt 98); ("c", VInt 99);
                      ("d", VInt 100); ("e", VInt 101); ("f", VInt 102)].*1).
  { simpl. apply (bool_decide_unpack _). by vm_compute. }
  split; [exact H1|]. split; [exact H2|]. split; [exact H3|].
  exact (distinct_writes_through_the_levels tick three_levels (Some 5) _ 0 H1 H2 H3).
Defined.

(** ** Clock readings *)

Section Timing.

Variable time : nat → Z.

Lemma level_put_time key value : ∀ ref clk r ref' clk',
  CacheLevel.put time key value ref clk = (Ret r, (ref', clk')) →
  clk' = clk + 2 * length ref ∧
  r = mkResponse VNone (time (clk + 2 * length ref - 1) - time clk).
Proof.
  induction ref as [|self next IH]; intros clk r ref' clk'; [done|].
  simpl.
  destruct (Cache.put key value _) as [[[]|e] c]; [|done].
  destruct next as [|l next].
  - intros [= <- _ <-]. simpl. split; [lia|]. do 3 f_equal. lia.
  - destruct (CacheLevel.put time key value (l :: next) (S clk))
      as [[r'|e] [next' clk'']] eqn:Hnext; [|done].
    apply IH in Hnext as [-> _].
    intros [= <- _ <-]. simpl. split; [lia|]. do 3 f_equal. lia.
Qed.

Lemma level_get_time key : ∀ ref clk r ref' clk',
  CacheLevel.get time key ref clk = (Ret r, (ref', clk')) →
  ∃ d, 1 ≤ d ≤ length ref ∧ clk' = clk + 2 * d ∧
       time_took r = (time (clk + 2 * d - 1)%nat - time clk)%Z.
Proof.
  induction ref as [|self next IH]; intros clk r ref' clk'; [done|].
  simpl.
  destruct (Cache.get key _) as [[v|e] c].
  - intros [= <- _ <-]. exists 1. simpl. split; [lia|]. split; [lia|]. do 2 f_equal. lia.
  - destruct e; try done.
    destruct next as [|l next]; [done|].
    destruct (CacheLevel.get time key (l :: next) (S clk))
      as [[r'|e] [next' clk'']] eqn:Hnext; [|done].
    apply IH in Hnext as (d & Hd & -> & _).
    destruct (Cache.put key _ c) as [[[]|e] c1]; [|done].
    intros [= <- _ <-]. exists (S d). simpl in *.
    split; [lia|]. split; [lia|]. do 2 f_equal. lia.
Qed.

End Timing.

(** X17: a write that returns has read the clock twice at every
    level; the time it records, beside the value [None], is the last
    of these readings minus the first, and the read queue is not
    touched. *)
Theorem write_is_timed time key value m clk m' clk' :
  MultilevelCache.put time key value m clk = (Ret tt, (m', clk')) →
  clk' = clk + 2 * length (MultilevelCache.front_cache_level m) ∧
  MultilevelCache.put_queue m'
    = appendleft (mkResponse VNone (time (clk' - 1)%nat - time clk))
        (MultilevelCache.put_queue m) ∧
  MultilevelCache.get_queue m' = MultilevelCache.get_queue m.
Proof.
  unfold MultilevelCache.put.
  destruct (CacheLevel.put _ _ _ _ _) as [[r|e] [front clk'']] eqn:Hput; [|done].
  apply level_put_time in Hput as [-> ->].
  intros [= <- <-]. done.
Qed.

(** A write into the three new levels: six readings. *)
Lemma write_is_timed_witness :
  let m := MultilevelCache.init three_levels (Some 5) in
  let res := MultilevelCache.put tick "a" (VInt 97) m 0 in
  res = (Ret tt, (fst (snd res), 6)) ∧
  6 = 0 + 2 * length (MultilevelCache.front_cache_level m) ∧
  MultilevelCache.put_queue (fst (snd res))
    = appendleft (mkResponse VNone (tick (6 - 1)%nat - tick 0))
        (MultilevelCache.put_queue m) ∧
  MultilevelCache.get_queue (fst (snd res)) = MultilevelCache.get_queue m.
Proof.
  split; [reflexivity|].
  apply (write_is_timed tick "a" (VInt 97) (MultilevelCache.init three_levels (Some 5)) 0).
  reflexivity.
Defined.

(** X18: a read that returns has read the clock twice at every level
    it went through, the front level included; the time of the
    response at the front of the read queue is the last of these
    readings minus the first. *)
Theorem read_is_timed time key m clk v m' clk' n :
  MultilevelCache.get time key m clk = (Ret v, (m', clk')) →
  maxlen (MultilevelCache.get_queue m) = Some (S n) →
  ∃ d, 1 ≤ d ≤ length (MultilevelCache.front_cache_level m) ∧
       clk' = clk + 2 * d ∧
       head (items (MultilevelCache.get_queue m'))
         = Some (mkResponse v (time (clk' - 1)%nat - time clk)).
Proof.
  unfold MultilevelCache.get.
  destruct (CacheLevel.get _ _ _ _) as [[r|e] [front clk'']] eqn:Hget; [|done].
  apply level_get_time in Hget as (d & Hd & -> & Ht).
  intros [= <- <- <-] Hn. exists d. split; [done|]. split; [done|].
  simpl. unfold appendleft. rewrite Hn. simpl. destruct r as [rv rt].
  simpl in *. by rewrite Ht.
Qed.

(** A read through to the second of two levels: four readings. *)
Lemma read_is_timed_witness :
  let m := MultilevelCache.init two_levels (Some 5) in
  let res := MultilevelCache.get tick "x" m 0 in
  res = (Ret (VReadResponse (VInt 120) 1), (fst (snd res), 4)) ∧
  maxlen (MultilevelCache.get_queue m) = Some 5 ∧
  ∃ d, 1 ≤ d ≤ length (MultilevelCache.front_cache_level m) ∧
       4 = 0 + 2 * d ∧
       head (items (MultilevelCache.get_queue (fst (snd res))))
         = Some (mkResponse (VReadResponse (VInt 120) 1) (tick (4 - 1)%nat - tick 0)).
Proof.
  split; [reflexivity|]. split; [reflexivity|].
  apply (read_is_timed tick "x" (MultilevelCache.init two_levels (Some 5)) 0
           (VReadResponse (VInt 120) 1) _ 4 4); reflexivity.
Defined.
